(** * Flags series (js/parts/FlagsSeries.js): placement, stacking, drawing

    A shallow embedding of the flags series type of the charting library:
    [pointAttribs], [translate], [drawPoints], the mouse-over handler that
    [drawTracker] installs, and the [flag] / [circlepin] / [squarepin]
    symbol callbacks.

    Conventions of the embedding.
    - A JavaScript number is an exact rational ([Q]); [NaN] and the
      infinities are not represented, and rounding of binary floating
      point is not modelled.  [===] on numbers is [Qeq_bool], [<=] is
      [Qle_bool].
    - [undefined] is [None]; a property that may be absent is an [option].
    - The array [series.points] is a [list Point] read with [!!] and
      written with [<[i:=p]>]; a point object is identified with its
      index in that array.
    - An object used as a property bag (the reference point's [plotY],
      [plotHigh], ... channels, [shapeArgs], [options.states]) is a
      [gmap string _].
    - The host framework (column translate, renderer, symbol table of the
      base shapes) is outside this file; what the flags code calls of it
      is a [Variable] of the section that needs it. *)

From Stdlib Require Import QArith Qround ZArith String Ascii Lqa.
From stdpp Require Import base option list gmap strings sorting.

Local Open Scope Z_scope.

(** ** JavaScript values *)

Module JS.

(** [a < b] on numbers. *)
Definition Qlt_bool (a b : Q) : bool := negb (Qle_bool b a).

(** Truthiness of a number that may be [undefined]: [undefined] and [0]
    are falsy. *)
Definition truthy_num (v : option Q) : bool :=
  match v with
  | Some q => negb (Qeq_bool q 0)
  | None => false
  end.

(** Truthiness of a string that may be [undefined]: [undefined] and the
    empty string are falsy. *)
Definition truthy_str (v : option string) : bool :=
  match v with
  | Some EmptyString => false
  | Some _ => true
  | None => false
  end.

(** [a || b] where [b] is a string literal. *)
Definition or_str (a : option string) (b : string) : string :=
  match a with
  | Some (String c s) => String c s
  | _ => b
  end.

(** [a || b] where both may be [undefined]. *)
Definition or_opt_str (a b : option string) : option string :=
  if truthy_str a then a else b.

(** [a || 0] on numbers. *)
Definition or_zero (a : option Q) : Q :=
  match a with
  | Some q => q
  | None => 0%Q
  end.

(** [a || b] on numbers that may be [undefined]. *)
Definition or_opt_num (a b : option Q) : option Q :=
  if truthy_num a then a else b.

(** [Math.round]: the nearest integer, ties towards plus infinity. *)
Definition round (q : Q) : Q := inject_Z (Qfloor (q + (1 # 2))).

(** Truncation towards zero. *)
Definition trunc (q : Q) : Z := Z.quot (Qnum q) (Zpos (Qden q)).

(** [a % b]: the remainder takes the sign of the dividend. *)
Definition rem (a b : Q) : Q := (a - b * inject_Z (trunc (a / b)))%Q.

(** [c.toUpperCase()] on one ASCII character. *)
Definition toUpperCase (c : ascii) : ascii :=
  let n := N_of_ascii c in
  if ((97 <=? n) && (n <=? 122))%N then ascii_of_N (n - 32) else c.

(** [arr[i]] for an integer index: [undefined] out of range. *)
Definition index {A} (arr : list A) (i : Z) : option A :=
  if i <? 0 then None else arr !! Z.to_nat i.

End JS.

(** ** Data model *)

(** The label object that the renderer hands back for a point
    ([renderer.label(...)]), reduced to the attributes the flags code
    sets or reads ([width], [height], the CSS, the shadow and the class
    name are left out).  The renderer is outside the sources at hand: an
    attribute holds the value that [attr] was last called with, and
    whatever the renderer derives from it is not represented. *)
Record Graphic := {
  g_shape : option string;
  g_useHTML : bool;
  g_fill : option string;
  g_stroke : option string;
  g_stroke_width : Q;
  g_align : string;
  g_text_align : string;
  g_text : string;
  g_x : option Q;
  g_y : option Q;
  g_anchorX : option Q;
  g_anchorY : option Q
}.

(** [point.options]. *)
Record PointOptions := {
  po_title : option string;
  po_shape : option string
}.

(** A flag point.  [plotX], [plotY], [stackIndex] and [shapeArgs] are
    recomputed by every [translate]; [raised] and [_y] belong to the
    mouse-over handler ([raised] is [undefined], hence falsy, until the
    handler sets it). *)
Record Point := {
  x : Q;
  plotX : Q;
  plotY : option Q;
  stackIndex : option Z;
  shapeArgs : gmap string Q;
  point_options : PointOptions;
  point_color : option string;
  point_fillColor : option string;
  point_lineWidth : option Q;
  graphic : option Graphic;
  tooltipPos : option (Q * Q);
  raised : bool;
  _y : option Q
}.

Definition set_plotX (v : Q) (p : Point) : Point :=
  {| x := x p; plotX := v; plotY := plotY p; stackIndex := stackIndex p;
     shapeArgs := shapeArgs p; point_options := point_options p;
     point_color := point_color p; point_fillColor := point_fillColor p;
     point_lineWidth := point_lineWidth p; graphic := graphic p;
     tooltipPos := tooltipPos p; raised := raised p; _y := _y p |}.

Definition set_plotY (v : option Q) (p : Point) : Point :=
  {| x := x p; plotX := plotX p; plotY := v; stackIndex := stackIndex p;
     shapeArgs := shapeArgs p; point_options := point_options p;
     point_color := point_color p; point_fillColor := point_fillColor p;
     point_lineWidth := point_lineWidth p; graphic := graphic p;
     tooltipPos := tooltipPos p; raised := raised p; _y := _y p |}.

Definition set_stackIndex (v : option Z) (p : Point) : Point :=
  {| x := x p; plotX := plotX p; plotY := plotY p; stackIndex := v;
     shapeArgs := shapeArgs p; point_options := point_options p;
     point_color := point_color p; point_fillColor := point_fillColor p;
     point_lineWidth := point_lineWidth p; graphic := graphic p;
     tooltipPos := tooltipPos p; raised := raised p; _y := _y p |}.

Definition set_shapeArgs (v : gmap string Q) (p : Point) : Point :=
  {| x := x p; plotX := plotX p; plotY := plotY p; stackIndex := stackIndex p;
     shapeArgs := v; point_options := point_options p;
     point_color := point_color p; point_fillColor := point_fillColor p;
     point_lineWidth := point_lineWidth p; graphic := graphic p;
     tooltipPos := tooltipPos p; raised := raised p; _y := _y p |}.

Definition set_graphic (v : option Graphic) (p : Point) : Point :=
  {| x := x p; plotX := plotX p; plotY := plotY p; stackIndex := stackIndex p;
     shapeArgs := shapeArgs p; point_options := point_options p;
     point_color := point_color p; point_fillColor := point_fillColor p;
     point_lineWidth := point_lineWidth p; graphic := v;
     tooltipPos := tooltipPos p; raised := raised p; _y := _y p |}.

Definition set_tooltipPos (v : option (Q * Q)) (p : Point) : Point :=
  {| x := x p; plotX := plotX p; plotY := plotY p; stackIndex := stackIndex p;
     shapeArgs := shapeArgs p; point_options := point_options p;
     point_color := point_color p; point_fillColor := point_fillColor p;
     point_lineWidth := point_lineWidth p; graphic := graphic p;
     tooltipPos := v; raised := raised p; _y := _y p |}.

Definition set_raised (v : bool) (p : Point) : Point :=
  {| x := x p; plotX := plotX p; plotY := plotY p; stackIndex := stackIndex p;
     shapeArgs := shapeArgs p; point_options := point_options p;
     point_color := point_color p; point_fillColor := point_fillColor p;
     point_lineWidth := point_lineWidth p; graphic := graphic p;
     tooltipPos := tooltipPos p; raised := v; _y := _y p |}.

Definition set__y (v : option Q) (p : Point) : Point :=
  {| x := x p; plotX := plotX p; plotY := plotY p; stackIndex := stackIndex p;
     shapeArgs := shapeArgs p; point_options := point_options p;
     point_color := point_color p; point_fillColor := point_fillColor p;
     point_lineWidth := point_lineWidth p; graphic := graphic p;
     tooltipPos := tooltipPos p; raised := raised p; _y := v |}.

(** [graphic.attr({ y: v })]. *)
Definition attr_y (v : option Q) (g : Graphic) : Graphic :=
  {| g_shape := g_shape g; g_useHTML := g_useHTML g; g_fill := g_fill g;
     g_stroke := g_stroke g; g_stroke_width := g_stroke_width g;
     g_align := g_align g; g_text_align := g_text_align g;
     g_text := g_text g; g_x := g_x g; g_y := v;
     g_anchorX := g_anchorX g; g_anchorY := g_anchorY g |}.

(** [graphic.attr({ text, x, y, anchorX, anchorY })]. *)
Definition attr_plant (text : string) (px py : Q) (ax ay : option Q)
    (g : Graphic) : Graphic :=
  {| g_shape := g_shape g; g_useHTML := g_useHTML g; g_fill := g_fill g;
     g_stroke := g_stroke g; g_stroke_width := g_stroke_width g;
     g_align := g_align g; g_text_align := g_text_align g;
     g_text := text; g_x := Some px; g_y := Some py;
     g_anchorX := ax; g_anchorY := ay |}.

(** A point of the reference series: its [x] and its pixel channels
    ([plotY], [plotOpen], [plotHigh], [plotLow], [plotClose]), looked up
    by property name. *)
Record OnPoint := {
  on_x : Q;
  on_plot : gmap string Q
}.

Record DataGrouping := {
  totalRange : Q
}.

(** The reference series that [chart.get(options.onSeries)] returns. *)
Record OnSeries := {
  visible : bool;
  step : bool;
  on_points : list OnPoint;
  pointXOffset : option Q;
  barW : option Q;
  currentDataGrouping : option DataGrouping
}.

(** [options.states[state]]. *)
Record StateOptions := {
  st_fillColor : option string;
  st_lineColor : option string;
  st_lineWidth : option Q
}.

(** The series options; the defaults of the source are [shape = 'flag'],
    [stackDistance = 12], [textAlign = 'center'], [y = -30],
    [lineWidth = 1]. *)
Record Options := {
  onSeries : option string;
  onKey : option string;
  shape : option string;
  stackDistance : Q;
  textAlign : string;
  title : option string;
  opt_y : Q;
  useHTML : bool;
  fillColor : option string;
  lineColor : option string;
  lineWidth : option Q;
  states : gmap string StateOptions
}.

Record Axis := {
  ext_min : Q;
  ext_max : Q;
  bottom : Q;
  opposite : bool;
  height : Q;
  offset : Q;
  top : Q;
  len : Q;
  pos : Q
}.

Record Chart := {
  chartHeight : Q;
  inverted : bool;
  plotLeft : Q;
  plotTop : Q;
  chart_series : gmap string OnSeries
}.

(** Modelled from the spec: [chart.get(id)] is defined with the chart,
    outside the sources at hand; it returns the series that carries the
    id ("a flags series declares a reference series id"), or
    [undefined]. *)
Definition get (c : Chart) (id : string) : option OnSeries :=
  chart_series c !! id.

Record Series := {
  options : Options;
  chart : Chart;
  points : list Point;
  xAxis : Axis;
  yAxis : Axis;
  color : option string
}.

Definition set_points (pts : list Point) (s : Series) : Series :=
  {| options := options s; chart := chart s; points := pts;
     xAxis := xAxis s; yAxis := yAxis s; color := color s |}.

(** ** [pointAttribs]: presentational attributes *)

Record Attribs := {
  at_fill : option string;
  at_stroke : option string;
  at_stroke_width : Q
}.

(** [pointAttribs(point, state)].  The result is [None] where the source
    raises a [TypeError], that is when [state] is given and
    [options.states[state]] is missing. *)
Definition pointAttribs (series : Series) (point : option Point)
    (state : option string) : option Attribs :=
  let options := options series in
  let color := JS.or_opt_str (point ≫= point_color) (color series) in
  let defaultLineWidth := lineWidth options in
  let lineColor := lineColor options in
  let lineWidth := point ≫= point_lineWidth in
  let fill := JS.or_opt_str (point ≫= point_fillColor) (fillColor options) in
  let finish fill lineColor lineWidth :=
    {| at_fill := JS.or_opt_str fill color;
       at_stroke := JS.or_opt_str lineColor color;
       at_stroke_width :=
         JS.or_zero (JS.or_opt_num lineWidth defaultLineWidth) |} in
  if JS.truthy_str state then
    st ← (state ≫= fun s => states options !! s);
    Some (finish (st_fillColor st) (st_lineColor st) (st_lineWidth st))
  else Some (finish fill lineColor lineWidth).

(** ** [stableSort] *)

(** Modelled from the spec: [H.stableSort] is defined in Utilities.js,
    which is not part of the sources at hand.  It sorts the array in
    place by the comparator and keeps the original order of elements that
    compare equal ("FlagPoints are always processed in ascending x order
    during attachment matching (re-sorted if needed)").  The model is the
    stable insertion sort: an element goes before the first element that
    it does not compare greater than. *)
Section StableSort.
Context {A : Type} (sortFunction : A → A → Q).

Fixpoint sort_insert (a : A) (l : list A) : list A :=
  match l with
  | [] => [a]
  | b :: l' =>
    if Qle_bool (sortFunction a b) 0 then a :: b :: l'
    else b :: sort_insert a l'
  end.

Fixpoint stableSort (arr : list A) : list A :=
  match arr with
  | [] => []
  | a :: arr' => sort_insert a (stableSort arr')
  end.
End StableSort.

(** ** [translate] *)

(** The property name that [onKey] is turned into:
    ['plot' + onKey[0].toUpperCase() + onKey.substr(1)].  The caller never
    passes the empty string ([options.onKey || 'y']). *)
Definition plotKey (onKey : string) : string :=
  match onKey with
  | EmptyString => "plot"
  | String c rest => "plot" +:+ String (JS.toUpperCase c) rest
  end.

Section Attach.
Variables (onData : list OnPoint) (onKey : string) (step : bool) (lastX : Q).

(** The assignment to [point.plotY] inside [if (point.x <= lastX)], for
    the reference point [leftPoint = onData[i]] whose channel value is
    [v]: the value itself, or the interpolation towards [onData[i + 1]]
    (#666). *)
Definition bind (i : Z) (leftPoint : OnPoint) (v : Q) (point : Point)
    : Point :=
  let plotY := v in
  let plotY :=
    if JS.Qlt_bool (on_x leftPoint) (x point) && negb step then
      match JS.index onData (i + 1) with
      | Some rightPoint =>
        match on_plot rightPoint !! onKey with
        | Some r =>
          (plotY +
           ((x point - on_x leftPoint) / (on_x rightPoint - on_x leftPoint))
           * (r - v))%Q
        | None => plotY
        end
      | None => plotY
      end
    else plotY in
  set_plotY (Some plotY) point.

(** [leftPoint.x <= point.x && leftPoint[onKey] !== undefined], giving
    the channel value when the test succeeds. *)
Definition matches (leftPoint : OnPoint) (point : Point) : option Q :=
  if Qle_bool (on_x leftPoint) (x point) then on_plot leftPoint !! onKey
  else None.

(** The [while (i-- && points[cursor])] loop.  One unit of [fuel] is one
    evaluation of the loop test; [attach_fuel] below shows that the
    fuel [translate] passes is never used up.  [onData[i]] is always in
    range when the body runs; the [None] branch stands for the
    [TypeError] of the source. *)
Fixpoint attach (fuel : nat) (i cursor : Z) (points : list Point)
    : list Point :=
  match fuel with
  | O => points
  | S fuel =>
    if i =? 0 then points else
    let i := i - 1 in
    match JS.index points cursor with
    | None => points
    | Some point =>
      match JS.index onData i with
      | None => points
      | Some leftPoint =>
        match matches leftPoint point with
        | Some v =>
          let points :=
            if Qle_bool (x point) lastX (* #803 *)
            then <[Z.to_nat cursor := bind i leftPoint v point]> points
            else points in
          let cursor := cursor - 1 in
          let i := i + 1 in (* check again for points in the same x *)
          if cursor <? 0 then points else attach fuel i cursor points
        | None => attach fuel i cursor points
        end
      end
    end
  end.
End Attach.

(** Modelled from the spec: [H.each] is defined in Utilities.js, which is
    not part of the sources at hand ("walk points in final order").
    [each(arr, fn)] calls [fn] with every index of the array in ascending
    order, on the array as the earlier calls left it. *)
Definition each {A} (fn : list A → nat → list A) (arr : list A) : list A :=
  foldl fn arr (seq 0 (length arr)).

Section Translate.
(** [seriesTypes.column.prototype.translate], which computes [plotX]
    (and [shapeArgs]) of every point before the flags code runs. *)
Variable columnTranslate : Series → Series.

(** The relation to the master series: the sorted points after the
    attachment loop, and [xOffset]. *)
Definition relate (series : Series) : list Point * Q :=
  let options := options series in
  let chart := chart series in
  let points := points series in
  let cursor := Z.of_nat (length points) - 1 in
  let optionsOnSeries := onSeries options in
  let onSeries :=
    if JS.truthy_str optionsOnSeries
    then optionsOnSeries ≫= get chart else None in
  let onKey := JS.or_str (onKey options) "y" in
  match onSeries with
  | Some onSeries =>
    let step := step onSeries in
    let onData := on_points onSeries in
    let i := Z.of_nat (length onData) in
    (* [i] is truthy exactly when [onData[i - 1]] exists *)
    match JS.index onData (i - 1) with
    | Some last =>
      if visible onSeries then
        let xOffset :=
          (JS.or_zero (pointXOffset onSeries)
           + JS.or_zero (barW onSeries) / 2)%Q in
        let currentDataGrouping := currentDataGrouping onSeries in
        let lastX :=
          (on_x last +
           match currentDataGrouping with
           | Some dg => totalRange dg
           | None => 0
           end)%Q in (* #2374 *)
        let points := stableSort (fun a b => (x a - x b)%Q) points in
        let onKey := plotKey onKey in
        (attach onData onKey step lastX
                (length onData + length points) i cursor points,
         xOffset)
      else (points, 0%Q)
    | None => (points, 0%Q)
    end
  | None => (points, 0%Q)
  end.

(** The block under [if (point.plotY === undefined)]: a point without
    [plotY] is on the axis, outside the range of the master series, or
    on a hidden series.  Inside the extremes of the x axis it is put on
    the axis; outside it keeps the undefined [plotY] and loses its
    [shapeArgs] (#847). *)
Definition fallback (series : Series) (point : Point) : Point :=
  let chart := chart series in
  let xAxis := xAxis series in
  let yAxis := yAxis series in
  match plotY point with
  | None =>
    if Qle_bool (ext_min xAxis) (x point)
       && Qle_bool (x point) (ext_max xAxis)
    then
      set_plotY
        (Some (chartHeight chart - bottom xAxis
               - (if opposite xAxis then height xAxis else 0)
               + offset xAxis - top yAxis)%Q) point (* #3517 *)
    else set_shapeArgs ∅ point
  | Some _ => point
  end.

(** The callback of [each(points, function (point, i) ...)]: the axis
    fallback, the shift by [xOffset], and the stacking of points on the
    same [plotX]. *)
Definition place (series : Series) (xOffset : Q) (points : list Point)
    (i : nat) : list Point :=
  match points !! i with
  | None => points
  | Some point =>
    let point := fallback series point in
    let point := set_plotX (plotX point + xOffset)%Q point in (* #2049 *)
    match JS.index points (Z.of_nat i - 1) with
    | Some lastPoint =>
      if Qeq_bool (plotX lastPoint) (plotX point) then
        let lastPoint :=
          match stackIndex lastPoint with
          | None => set_stackIndex (Some 0) lastPoint
          | Some _ => lastPoint
          end in
        let stackIndex := (λ s, s + 1) <$> stackIndex lastPoint in
        <[i := set_stackIndex stackIndex point]>
          (<[Nat.pred i := lastPoint]> points)
      else <[i := set_stackIndex None point]> points (* #3639 *)
    | None => <[i := set_stackIndex None point]> points
    end
  end.

Definition translate (series : Series) : Series :=
  let series := columnTranslate series in
  let '(points, xOffset) := relate series in
  set_points (each (place series xOffset) points) series.
End Translate.

(** ** [drawPoints] *)

Section Draw.
(** [graphic.strokeWidth()], a method of the renderer's element. *)
Variable strokeWidth : Graphic → Q.

(** [renderer.label('', null, null, shape, null, null, options.useHTML)]
    with the attributes set on creation. *)
Definition label (series : Series) (point : Point) (shape : option string)
    : Graphic :=
  let options := options series in
  let attribs := pointAttribs series (Some point) None in
  {| g_shape := shape;
     g_useHTML := useHTML options;
     g_fill := attribs ≫= at_fill;
     g_stroke := attribs ≫= at_stroke;
     g_stroke_width := JS.or_zero (at_stroke_width <$> attribs);
     g_align :=
       match shape with
       | Some "flag" => "left"
       | _ => "center"
       end;
     g_text_align := textAlign options;
     g_text := EmptyString;
     g_x := None;
     g_y := None;
     g_anchorX := None;
     g_anchorY := None |}.

(** One iteration of the [while (i--)] loop, on [point = points[i]]. *)
Definition drawPoint (series : Series) (point : Point) : Point :=
  let options := options series in
  let chart := chart series in
  let optionsY := opt_y options in
  let yAxis := yAxis series in
  let point_plotX := plotX point in
  let point_plotY := plotY point in
  let outsideRight := JS.Qlt_bool (len (xAxis series)) point_plotX in
  let plotX := point_plotX in
  let stackIndex := stackIndex point in
  let shape :=
    JS.or_opt_str (po_shape (point_options point)) (shape options) in
  let plotY :=
    (λ plotY : Q,
       plotY + optionsY
       - match stackIndex with
         | Some s => inject_Z s * stackDistance options
         | None => 0
         end)%Q <$> point_plotY in
  (* skip connectors for higher level stacked points *)
  let stacked :=
    match stackIndex with
    | Some s => negb (s =? 0)
    | None => false
    end in
  let anchorX := if stacked then None else Some point_plotX in
  let anchorY := if stacked then None else point_plotY in
  let graphic := graphic point in
  match plotY with
  | Some plotY =>
    if Qle_bool 0 plotX && negb outsideRight then
      let graphic :=
        match graphic with
        | Some g => g
        | None => label series point shape
        end in
      let plotX :=
        if JS.Qlt_bool 0 plotX (* #3119 *)
        then (plotX - JS.rem (strokeWidth graphic) 2)%Q (* #4285 *)
        else plotX in
      let graphic :=
        attr_plant
          (JS.or_str
             (JS.or_opt_str (po_title (point_options point)) (title options))
             "A")
          plotX plotY anchorX anchorY graphic in
      set_tooltipPos
        (Some
           (if inverted chart
            then ((len yAxis + pos yAxis - plotLeft chart - plotY)%Q,
                  (len (xAxis series) - plotX)%Q)
            else (plotX, (plotY + pos yAxis - plotTop chart)%Q))) (* #6327 *)
        (set_graphic (Some graphic) point)
    else
      match graphic with
      | Some _ => set_graphic None point (* graphic.destroy() *)
      | None => point
      end
  | None =>
    match graphic with
    | Some _ => set_graphic None point
    | None => point
    end
  end.

(** [i = points.length; while (i--) { point = points[i]; ... }] *)
Fixpoint drawPoints_loop (series : Series) (i : nat) (points : list Point)
    : list Point :=
  match i with
  | O => points
  | S i =>
    match points !! i with
    | Some point =>
      drawPoints_loop series i (<[i := drawPoint series point]> points)
    | None => drawPoints_loop series i points
    end
  end.

(** The wrapping of [markerGroup.on] for [useHTML] only re-routes event
    registration and leaves the points alone; it is not represented. *)
Definition drawPoints (series : Series) : Series :=
  let points := points series in
  set_points (drawPoints_loop series (length points) points) series.
End Draw.

(** ** [drawTracker]: raising a stacked flag on mouse over *)

(** The points that get a [mouseover] listener: those with a graphic. *)
Definition drawTracker (series : Series) : list nat :=
  filter (λ k, is_Some (points series !! k ≫= graphic))
         (seq 0 (length (points series))).

(** The callback of the inner [each]: revert [otherPoint = points[j]]
    unless it is the point of the listener. *)
Definition revert (k : nat) (points : list Point) (j : nat) : list Point :=
  match points !! j with
  | Some otherPoint =>
    match graphic otherPoint with
    | Some g =>
      if negb (j =? k)%nat && raised otherPoint then
        <[j := set_raised false
                 (set_graphic (Some (attr_y (_y otherPoint) g)) otherPoint)]>
          points
      else points
    | None => points
    end
  | None => points
  end.

(** The listener that [drawTracker] registers on the graphic of
    [points[k]].  It can only fire while that graphic exists. *)
Definition mouseover (k : nat) (points : list Point) : list Point :=
  match points !! k with
  | Some point =>
    match graphic point with
    | Some graphic =>
      let stacked :=
        match stackIndex point with
        | Some s => 0 <? s
        | None => false
        end in
      let points :=
        if stacked && negb (raised point) then
          let _y := g_y graphic in
          <[k := set_raised true
                   (set_graphic
                      (Some (attr_y ((λ v, v - 8)%Q <$> _y) graphic))
                      (set__y _y point))]> points
        else points in
      each (revert k) points
    | None => points
    end
  | None => points
  end.

(** A sequence of pointer-over events, given by the indices of the
    points whose marker is entered. *)
Definition mouseovers (events : list nat) (points : list Point)
    : list Point :=
  foldl (λ points k, mouseover k points) points events.

(** ** Symbols *)

Inductive PathItem :=
  | Cmd (c : string)
  | Num (n : Q).

Record SymbolOptions := {
  anchorX : option Q;
  anchorY : option Q
}.

(** [symbols.flag]: the flag icon with anchor. *)
Definition flag (x y w h : Q) (options : option SymbolOptions)
    : list PathItem :=
  let anchorX := JS.or_zero (JS.or_opt_num (options ≫= anchorX) (Some x)) in
  let anchorY := JS.or_zero (JS.or_opt_num (options ≫= anchorY) (Some y)) in
  [Cmd "M"; Num anchorX; Num anchorY;
   Cmd "L"; Num x; Num (y + h)%Q;
   Num x; Num y;
   Num (x + w)%Q; Num y;
   Num (x + w)%Q; Num (y + h)%Q;
   Num x; Num (y + h)%Q;
   Cmd "Z"].

Section Pins.
(** [symbols[shape]] for the base shapes ['circle'] and ['square'] of
    the renderer. *)
Variable symbols : string → Q → Q → Q → Q → list PathItem.

(** The box handed to the base shape: for single-letter flags, circular
    flags are made not taller than their width. *)
Definition pin_box (shape : string) (x w h : Q) : Q * Q :=
  if String.eqb shape "circle" && JS.Qlt_bool w h
  then ((x - JS.round ((h - w) / 2))%Q, h)
  else (x, w).

(** [symbols[shape + 'pin']]. *)
Definition pin (shape : string) (x y w h : Q)
    (options : option SymbolOptions) : list PathItem :=
  let anchorX := options ≫= anchorX in
  let anchorY := options ≫= anchorY in
  let '(x, w) := pin_box shape x w h in
  let path := symbols shape x y w h in
  match anchorX, anchorY with
  | Some anchorX, Some anchorY =>
    if negb (Qeq_bool anchorX 0) && negb (Qeq_bool anchorY 0) then
      (* from the top edge if the label is below the anchor, otherwise
         from the bottom edge *)
      let labelTopOrBottomY :=
        if JS.Qlt_bool anchorY y then y else (y + h)%Q in
      path ++ [Cmd "M"; Num anchorX; Num labelTopOrBottomY;
               Cmd "L"; Num anchorX; Num anchorY]
    else path
  | _, _ => path
  end.

Definition circlepin := pin "circle".
Definition squarepin := pin "square".
End Pins.

(** * Vocabulary of the statements *)

(** The points are in ascending order of [x]. *)
Definition ascending (pts : list Point) : Prop :=
  ∀ (a b : nat) pa pb,
    (a ≤ b)%nat → pts !! a = Some pa → pts !! b = Some pb → (x pa <= x pb)%Q.

(** The order of the points by [x]. *)
Definition x_le (a b : Point) : Prop := (x a <= x b)%Q.

(** The comparator that [translate] hands to [stableSort]. *)
Definition by_x (a b : Point) : Q := (x a - x b)%Q.

(** What the [each] loop of [translate] does to one point apart from
    the stacking: the axis fallback and the shift by [xOffset]. *)
Definition placed (series : Series) (xOffset : Q) (p : Point) : Point :=
  let p := fallback series p in
  set_plotX (plotX p + xOffset)%Q p.

(** Over the list [P] of the final [plotX] values: does point [k] sit on
    the same pixel as its predecessor? *)
Definition same (P : list Q) (k : nat) : bool :=
  match k with
  | O => false
  | S k' =>
    match P !! k', P !! k with
    | Some a, Some b => Qeq_bool a b
    | _, _ => false
    end
  end.

(** The number of predecessors in an unbroken run of points on the same
    pixel. *)
Fixpoint rank (P : list Q) (k : nat) : Z :=
  match k with
  | O => 0
  | S k' => if same P k then rank P k' + 1 else 0
  end.

(** [stackIndex] of point [k] right after its own turn in the loop. *)
Definition stack_own (P : list Q) (k : nat) : option Z :=
  if same P k then Some (rank P k) else None.

(** [stackIndex] of point [k] once its successor has had its turn. *)
Definition stack_final (P : list Q) (k : nat) : option Z :=
  if same P k then Some (rank P k)
  else if same P (S k) then Some 0
  else None.

(** The array after the first [n] calls of the callback. *)
Definition placed_upto (series : Series) (xOffset : Q) (pts : list Point)
    (n : nat) : list Point :=
  let P := (λ p, plotX (placed series xOffset p)) <$> pts in
  imap (λ k p,
          if (k <? n)%nat then
            set_stackIndex
              (if (S k <? n)%nat then stack_final P k else stack_own P k)
              (placed series xOffset p)
          else p) pts.

(** A marker is raised when its point is flagged [raised] and has a
    graphic. *)
Definition marker_raised (p : Point) : bool :=
  raised p && bool_decide (is_Some (graphic p)).

(** The point is drawn: [plotY] is defined and [plotX] is inside the
    visible area. *)
Definition drawn (series : Series) (p : Point) : Prop :=
  is_Some (plotY p) ∧ (0 <= plotX p)%Q ∧ (plotX p <= len (xAxis series))%Q.

(** What the inner [each] of the listener of point [k] does to the point
    at index [j]. *)
Definition reverted (k j : nat) (p : Point) : Point :=
  match graphic p with
  | Some g =>
    if negb (j =? k)%nat && raised p
    then set_raised false (set_graphic (Some (attr_y (_y p) g)) p)
    else p
  | None => p
  end.

(** At most one marker of the series is raised. *)
Definition at_most_one_raised (pts : list Point) : Prop :=
  ∀ (i j : nat) pi pj,
    pts !! i = Some pi → pts !! j = Some pj →
    marker_raised pi = true → marker_raised pj = true → i = j.

(** The state of the point of the listener once the listener has run. *)
Definition raise (p : Point) (g : Graphic) : Point :=
  match stackIndex p with
  | Some s =>
    if (0 <? s) && negb (raised p) then
      set_raised true
        (set_graphic (Some (attr_y ((λ v, v - 8)%Q <$> g_y g) g))
                     (set__y (g_y g) p))
    else p
  | None => p
  end.

(** The index of the last element of the array that satisfies [P]. *)
Fixpoint last_index {A} (P : A → bool) (n : nat) (arr : list A) : option nat :=
  match arr with
  | [] => None
  | a :: arr' =>
    match last_index P (S n) arr' with
    | Some j => Some j
    | None => if P a then Some n else None
    end
  end.

(** The nearest reference point with [x <= px], by its index: the last
    such point of the array. *)
Definition nearest (onData : list OnPoint) (px : Q) : option nat :=
  last_index (λ lp, Qle_bool (on_x lp) px) 0 onData.

(** The reference point a flag is matched with, by its index: the last
    point of the array with [x <= point.x] and a defined channel value. *)
Definition matched (onKey : string) (onData : list OnPoint) (point : Point)
    : option nat :=
  last_index (λ lp, bool_decide (is_Some (matches onKey lp point))) 0 onData.

(** The reference points are in strictly ascending order of [x]. *)
Fixpoint strictly_ascending (onData : list OnPoint) : bool :=
  match onData with
  | [] => true
  | a :: rest =>
    forallb (λ b, JS.Qlt_bool (on_x a) (on_x b)) rest
    && strictly_ascending rest
  end.

(** The effective upper bound of the reference series: the [x] of its
    last point plus the total range of the data grouping, if any. *)
Definition lastX (os : OnSeries) : option Q :=
  (λ l, (on_x l
         + match currentDataGrouping os with
           | Some dg => totalRange dg
           | None => 0
           end)%Q) <$> last (on_points os).

(** The property of the reference points that the series binds to. *)
Definition channel (s : Series) : string :=
  plotKey (JS.or_str (onKey (options s)) "y").

(** The flags series names the visible, non-empty series [os] as its
    [onSeries]. *)
Definition bound_to (s : Series) (os : OnSeries) : Prop :=
  ∃ id, onSeries (options s) = Some id ∧ id ≠ EmptyString ∧
        get (chart s) id = Some os ∧ visible os = true ∧
        on_points os ≠ [].

(** Point [k] sits on the same pixel as the point before it. *)
Definition on_pixel_of_predecessor (pts : list Point) (k : nat) : Prop :=
  ∃ k' q' q, k = S k' ∧ pts !! k' = Some q' ∧ pts !! k = Some q ∧
             (plotX q' == plotX q)%Q.

(** ** Scenarios *)

Module Scenario.

Definition flag_at (px : Q) : Point :=
  {| x := px; plotX := px; plotY := None; stackIndex := None;
     shapeArgs := {[ "x" := px ]};
     point_options := {| po_title := None; po_shape := None |};
     point_color := None; point_fillColor := None; point_lineWidth := None;
     graphic := None; tooltipPos := None; raised := false; _y := None |}.

(** A range series with points at [x = 0] ([plotHigh = 100]) and
    [x = 10] ([plotHigh = 120]). *)
Definition master : OnSeries :=
  {| visible := true; step := false;
     on_points :=
       [ {| on_x := 0; on_plot := {[ "plotHigh" := 100%Q ]} |};
         {| on_x := 10; on_plot := {[ "plotHigh" := 120%Q ]} |} ];
     pointXOffset := None; barW := None; currentDataGrouping := None |}.

(** The default options, bound to the [high] key of [master]. *)
Definition default_options : Options :=
  {| onSeries := Some "master"; onKey := Some "high";
     shape := Some "flag"; stackDistance := 12; textAlign := "center";
     title := None; opt_y := -30; useHTML := false;
     fillColor := Some "#ffffff"; lineColor := None;
     lineWidth := Some 1%Q; states := ∅ |}.

Definition x_axis : Axis :=
  {| ext_min := 0; ext_max := 100; bottom := 40; opposite := false;
     height := 300; offset := 0; top := 10; len := 500; pos := 10 |}.

Definition y_axis : Axis :=
  {| ext_min := 0; ext_max := 200; bottom := 40; opposite := false;
     height := 300; offset := 0; top := 10; len := 300; pos := 10 |}.

Definition stock_chart : Chart :=
  {| chartHeight := 400; inverted := false; plotLeft := 10; plotTop := 10;
     chart_series := {[ "master" := master ]} |}.

(** Flags at [x = 5] (between the reference points), twice at [x = 10]
    (on a reference point), three times at [x = 50] (beyond the
    reference series, inside the axis) and at [x = 200] (outside the
    axis). *)
Definition flags : Series :=
  {| options := default_options; chart := stock_chart;
     points := [flag_at 50; flag_at 5; flag_at 50; flag_at 200;
                flag_at 10; flag_at 50; flag_at 10];
     xAxis := x_axis; yAxis := y_axis; color := Some "#000000" |}.

(** The column translate of the scenario: the pixel is the [x]. *)
Definition column_translate (s : Series) : Series := s.

(** The stroke width of the renderer's element: its attribute. *)
Definition stroke_width (g : Graphic) : Q := g_stroke_width g.

(** [flags] after [translate] and [drawPoints]. *)
Definition drawn_flags : Series :=
  drawPoints stroke_width (translate column_translate flags).

(** [drawn_flags] after the pointer has been over the topmost of the
    three flags at [x = 50]. *)
Definition hovered_flags : Series :=
  set_points (mouseover 5 (points drawn_flags)) drawn_flags.

(** The base shape of the scenario records the box it is called with. *)
Definition box_symbol (shape : string) (x y w h : Q) : list PathItem :=
  [Cmd shape; Num x; Num y; Num w; Num h].

End Scenario.

(** The series that [translate] looks up for the attachment:
    [optionsOnSeries && chart.get(optionsOnSeries)]. *)
Definition master_of (s : Series) : option OnSeries :=
  if JS.truthy_str (onSeries (options s))
  then onSeries (options s) ≫= get (chart s) else None.

(** [xOffset] of a series related to the master [os]. *)
Definition xOffset_on (os : OnSeries) : Q :=
  (JS.or_zero (pointXOffset os) + JS.or_zero (barW os) / 2)%Q.

(** The [plotY] of a flag on the axis (#3517). *)
Definition axisY (s : Series) : Q :=
  (chartHeight (chart s) - bottom (xAxis s)
   - (if opposite (xAxis s) then height (xAxis s) else 0)
   + offset (xAxis s) - top (yAxis s))%Q.

(** ** Further scenarios *)

Module Cases.

(** The options of [Scenario], bound to the series with the given id. *)
Definition options_on (id : option string) : Options :=
{| onSeries := id; onKey := Some "high";
   shape := Some "flag"; stackDistance := 12; textAlign := "center";
   title := Some "E"; opt_y := -30; useHTML := false;
   fillColor := Some "#ffffff"; lineColor := None;
   lineWidth := Some 1%Q;
   states :=
     {[ "hover" := {| st_fillColor := Some "#fcffc5";
                      st_lineColor := Some "#000000";
                      st_lineWidth := None |} ]} |}.

(** [Scenario.master] in step mode. *)
Definition stepped : OnSeries :=
{| visible := true; step := true;
   on_points := on_points Scenario.master;
   pointXOffset := None; barW := None; currentDataGrouping := None |}.

(** A reference series whose second point has no [plotHigh]. *)
Definition gapped : OnSeries :=
{| visible := true; step := false;
   on_points :=
     [ {| on_x := 0; on_plot := {[ "plotHigh" := 100%Q ]} |};
       {| on_x := 10; on_plot := {[ "plotLow" := 90%Q ]} |} ];
   pointXOffset := None; barW := None; currentDataGrouping := None |}.

(** [Scenario.master] with grouped data: the last group extends over a
  total range of [5], and the columns are [8] wide and offset by
  [-4]. *)
Definition grouped : OnSeries :=
{| visible := true; step := false;
   on_points := on_points Scenario.master;
   pointXOffset := Some (-4)%Q; barW := Some 8%Q;
   currentDataGrouping := Some {| totalRange := 5 |} |}.

(** [Scenario.master], hidden. *)
Definition hidden : OnSeries :=
{| visible := false; step := false;
   on_points := on_points Scenario.master;
   pointXOffset := None; barW := None; currentDataGrouping := None |}.

Definition stock_chart : Chart :=
{| chartHeight := 400; inverted := false; plotLeft := 10; plotTop := 10;
   chart_series :=
     {[ "master" := Scenario.master; "stepped" := stepped;
        "gapped" := gapped; "grouped" := grouped; "hidden" := hidden ]} |}.

(** Flags at [x = 12], [x = -3] and [x = 5] on the series with the
  given id. *)
Definition flags_on (id : option string) : Series :=
{| options := options_on id; chart := stock_chart;
   points := [Scenario.flag_at 12; Scenario.flag_at (-3);
              Scenario.flag_at 5];
   xAxis := Scenario.x_axis; yAxis := Scenario.y_axis;
   color := Some "#000000" |}.


End Cases.

(** * Facts *)

(** ** Numbers *)

(** [Math.round] is within one half of its argument. *)
Lemma round_bounds (q : Q) : (q - (1 # 2) < JS.round q <= q + (1 # 2))%Q.
Proof.
  unfold JS.round.
  pose proof (Qfloor_le (q + (1 # 2))) as Hle.
  pose proof (Qlt_floor (q + (1 # 2))) as Hlt.
  rewrite inject_Z_plus in Hlt. change (inject_Z 1) with 1%Q in Hlt.
  split; lra.
Qed.

Lemma Qlt_bool_iff a b : JS.Qlt_bool a b = true ↔ (a < b)%Q.
Proof.
  unfold JS.Qlt_bool. rewrite negb_true_iff. split.
  - intros H. apply Qnot_le_lt. intros Hle. apply Qle_bool_iff in Hle.
    congruence.
  - intros H. destruct (Qle_bool b a) eqn:E; [|done].
    apply Qle_bool_iff in E. by apply Qle_not_lt in E.
Qed.

(** ** Array indexing *)

Lemma index_Some {A} (arr : list A) (i : Z) a :
  JS.index arr i = Some a ↔ 0 ≤ i ∧ arr !! Z.to_nat i = Some a.
Proof.
  unfold JS.index. destruct (Z.ltb_spec i 0); [split; [done | lia] |].
  split; [auto | by intros [_ ?]].
Qed.

Lemma index_nat {A} (arr : list A) (n : nat) :
  JS.index arr (Z.of_nat n) = arr !! n.
Proof.
  unfold JS.index. destruct (Z.ltb_spec (Z.of_nat n) 0); [lia|].
  by rewrite Nat2Z.id.
Qed.

Lemma index_None {A} (arr : list A) (i : Z) :
  JS.index arr i = None ↔ i < 0 ∨ Z.of_nat (length arr) ≤ i.
Proof.
  unfold JS.index. destruct (Z.ltb_spec i 0).
  - split; [auto | done].
  - rewrite lookup_ge_None. lia.
Qed.

(** ** The attachment loop *)

Section AttachFacts.
Variables (onData : list OnPoint) (onKey : string) (step : bool) (lastX : Q).

Abbreviation attach := (attach onData onKey step lastX).
Abbreviation bind := (bind onData onKey step).
Abbreviation matches := (matches onKey).

Lemma x_bind i lp v p : x (bind i lp v p) = x p.
Proof. reflexivity. Qed.

Lemma attach_length fuel : ∀ i cursor pts,
  length (attach fuel i cursor pts) = length pts.
Proof.
  induction fuel as [|fuel IH]; intros i cursor pts; simpl; [done|].
  repeat case_match; rewrite ?IH, ?length_insert; done.
Qed.

(** The loop only writes at indices up to [cursor]. *)
Lemma attach_above fuel : ∀ i cursor pts (c : nat),
  cursor < Z.of_nat c → attach fuel i cursor pts !! c = pts !! c.
Proof.
  induction fuel as [|fuel IH]; intros i cursor pts c Hc; simpl; [done|].
  destruct (i =? 0); [done|].
  destruct (JS.index pts cursor) as [point|] eqn:Hp; [|done].
  apply index_Some in Hp as [? Hp].
  destruct (JS.index onData (i - 1)) as [lp|]; [|done].
  destruct (matches lp point) as [v|]; [|by apply IH].
  destruct (Qle_bool (x point) lastX), (cursor - 1 <? 0);
    rewrite ?IH by lia; try done; apply list_lookup_insert_ne; lia.
Qed.

(** Every point keeps its [x]. *)
Lemma attach_x fuel : ∀ i cursor pts,
  x <$> attach fuel i cursor pts = x <$> pts.
Proof.
  induction fuel as [|fuel IH]; intros i cursor pts; simpl; [done|].
  destruct (i =? 0); [done|].
  destruct (JS.index pts cursor) as [point|] eqn:Hp; [|done].
  apply index_Some in Hp as [? Hp].
  destruct (JS.index onData (i - 1)) as [lp|]; [|done].
  destruct (matches lp point) as [v|]; [|apply IH].
  assert (x <$> <[Z.to_nat cursor:=bind (i - 1) lp v point]> pts = x <$> pts) as Hins.
  { rewrite list_fmap_insert. apply list_insert_id. by rewrite list_lookup_fmap, Hp. }
  destruct (Qle_bool (x point) lastX), (cursor - 1 <? 0); rewrite ?IH; done.
Qed.


Lemma matches_Some lp p v :
  matches lp p = Some v ↔ (on_x lp <= x p)%Q ∧ on_plot lp !! onKey = Some v.
Proof.
  unfold matches. destruct (Qle_bool (on_x lp) (x p)) eqn:E.
  - apply Qle_bool_iff in E. split; [by intros ? | by intros [_ ?]].
  - split; [done|]. intros [E' _]. apply Qle_bool_iff in E'. congruence.
Qed.

(** A reference point that matches a flag matches every flag further
    right. *)
Lemma matches_mono lp p q v :
  matches lp p = Some v → (x p <= x q)%Q → matches lp q = Some v.
Proof.
  rewrite !matches_Some. intros [? ?] ?. split; [|done].
  by apply Qle_trans with (x p).
Qed.

(** The flag at index [k] meets the loop with [i] still above the
    reference point [j] it has to be matched with, and leaves it bound
    to that point, or untouched when it is beyond [lastX]. *)
Lemma attach_at fuel : ∀ i cursor pts (k j : nat) p lp v,
  pts !! k = Some p →
  Z.of_nat k ≤ cursor < Z.of_nat (length pts) →
  (∀ (c : nat) q, (k ≤ c)%nat → Z.of_nat c ≤ cursor → pts !! c = Some q →
                  (x p <= x q)%Q) →
  onData !! j = Some lp →
  matches lp p = Some v →
  (∀ (j' : nat) lp', (j < j')%nat → onData !! j' = Some lp' →
                     matches lp' p = None) →
  Z.of_nat j < i ≤ Z.of_nat (length onData) →
  (Z.to_nat (i + cursor) < fuel)%nat →
  attach fuel i cursor pts !! k =
    Some (if Qle_bool (x p) lastX then bind (Z.of_nat j) lp v p else p).
Proof.
  induction fuel as [|fuel IH];
    intros i cursor pts k j p lp v Hk Hcur Hsorted Hj Hm Hnearest Hi Hfuel;
    [lia|].
  simpl. destruct (Z.eqb_spec i 0); [lia|].
  destruct (JS.index pts cursor) as [point|] eqn:Hp; cycle 1.
  { apply index_None in Hp. lia. }
  apply index_Some in Hp as [_ Hp].
  destruct (JS.index onData (i - 1)) as [lp'|] eqn:Hlp; cycle 1.
  { apply index_None in Hlp. lia. }
  apply index_Some in Hlp as [_ Hlp].
  assert (x p <= x point)%Q as Hle by (apply (Hsorted (Z.to_nat cursor)); [lia..|done]).
  destruct (matches lp' point) as [v'|] eqn:Hm'.
  - replace (i - 1 + 1) with i by lia.
    destruct (decide (cursor = Z.of_nat k)) as [->|Hne].
    + rewrite Nat2Z.id in Hp |- *. simplify_eq.
      destruct (decide (i - 1 = Z.of_nat j)) as [Hij|Hij]; cycle 1.
      { rewrite (Hnearest (Z.to_nat (i - 1)) lp') in Hm'; [done|lia|done]. }
      rewrite Hij, Nat2Z.id in Hlp. simplify_eq. rewrite Hij.
      assert (∀ pts' : list Point,
        (if Z.of_nat k - 1 <? 0 then pts'
         else attach fuel i (Z.of_nat k - 1) pts') !! k = pts' !! k) as ->.
      { intros pts'. destruct (Z.of_nat k - 1 <? 0); [done|].
        apply attach_above. lia. }
      destruct (Qle_bool _ lastX); [|done].
      apply list_lookup_insert_eq. by eapply lookup_lt_Some.
    + destruct (Z.ltb_spec (cursor - 1) 0); [lia|].
      apply IH; try done; try lia.
      * destruct (Qle_bool (x point) lastX); [|done].
        rewrite list_lookup_insert_ne by lia. done.
      * destruct (Qle_bool (x point) lastX); rewrite ?length_insert; lia.
      * intros c q ? ? Hq. apply (Hsorted c); [done|lia|].
        destruct (Qle_bool (x point) lastX); [|done].
        rewrite list_lookup_insert_ne in Hq by lia. done.
  - destruct (decide (i - 1 = Z.of_nat j)) as [Hij|Hij].
    { rewrite Hij, Nat2Z.id in Hlp. simplify_eq.
      by rewrite (matches_mono _ _ _ _ Hm Hle) in Hm'. }
    apply IH with (p := p) (lp := lp); try done; lia.
Qed.

(** A flag beyond [lastX] is never written (#803). *)
Lemma attach_beyond fuel : ∀ i cursor pts (c : nat) p,
  pts !! c = Some p → Qle_bool (x p) lastX = false →
  attach fuel i cursor pts !! c = Some p.
Proof.
  induction fuel as [|fuel IH]; intros i cursor pts c p Hc Hp; simpl;
    [done|].
  destruct (i =? 0); [done|].
  destruct (JS.index pts cursor) as [point|] eqn:Hpoint; [|done].
  apply index_Some in Hpoint as [? Hpoint].
  destruct (JS.index onData (i - 1)) as [lp|]; [|done].
  destruct (matches lp point) as [v|]; [|by apply IH].
  assert ((if Qle_bool (x point) lastX
           then <[Z.to_nat cursor:=bind (i - 1) lp v point]> pts
           else pts) !! c = Some p) as Hc'.
  { destruct (Qle_bool (x point) lastX) eqn:Hle; [|done].
    rewrite list_lookup_insert_ne; [done|]. intros <-. congruence. }
  destruct (cursor - 1 <? 0); [done|]. by apply IH.
Qed.
End AttachFacts.

(** ** [stableSort] sorts by [x] *)

Lemma by_x_le a b : Qle_bool (by_x a b) 0 = true ↔ (x a <= x b)%Q.
Proof.
  unfold by_x. rewrite Qle_bool_iff. split; intros H.
  - apply Qplus_le_l with (z := (- x b)%Q). by rewrite Qplus_opp_r.
  - apply Qplus_le_l with (z := (- x b)%Q) in H. by rewrite Qplus_opp_r in H.
Qed.

Lemma sort_insert_perm {A} (f : A → A → Q) a l : sort_insert f a l ≡ₚ a :: l.
Proof.
  induction l as [|b l IH]; simpl; [done|].
  destruct (Qle_bool (f a b) 0); [done|].
  rewrite IH. apply Permutation_swap.
Qed.

Lemma stableSort_perm {A} (f : A → A → Q) l : stableSort f l ≡ₚ l.
Proof.
  induction l as [|a l IH]; simpl; [done|].
  by rewrite sort_insert_perm, IH.
Qed.

Lemma stableSort_length {A} (f : A → A → Q) l :
  length (stableSort f l) = length l.
Proof. by rewrite stableSort_perm. Qed.

Lemma sort_insert_sorted a l :
  StronglySorted x_le l → StronglySorted x_le (sort_insert by_x a l).
Proof.
  induction 1 as [|b l Hl IH Hb]; simpl.
  - repeat constructor.
  - destruct (Qle_bool (by_x a b) 0) eqn:E.
    + apply by_x_le in E. constructor; [by constructor|].
      constructor; [done|].
      eapply Forall_impl; [done|]. intros c Hc. by apply Qle_trans with (x b).
    + constructor; [done|].
      rewrite sort_insert_perm. constructor; [|done].
      apply Qlt_le_weak, Qnot_le_lt. intros H. apply by_x_le in H. congruence.
Qed.

Lemma stableSort_sorted l : StronglySorted x_le (stableSort by_x l).
Proof.
  induction l as [|a l IH]; simpl; [constructor|].
  by apply sort_insert_sorted.
Qed.

Lemma sorted_ascending l : StronglySorted x_le l → ascending l.
Proof.
  induction 1 as [|c l Hl IH Hc]; intros a b pa pb Hab Ha Hb; [done|].
  destruct a as [|a], b as [|b]; simpl in *; simplify_eq; try lia.
  - apply Qle_refl.
  - rewrite Forall_forall in Hc. apply Hc. by eapply list_elem_of_lookup_2.
  - apply (IH a b); [lia|done..].
Qed.

Lemma stableSort_ascending l : ascending (stableSort by_x l).
Proof. apply sorted_ascending, stableSort_sorted. Qed.

(** ** The [each] loop of [translate] *)

Arguments same : simpl never.
Arguments rank : simpl never.
Arguments placed : simpl never.
Arguments stack_own : simpl never.
Arguments stack_final : simpl never.

Section PlaceFacts.
Variables (series : Series) (xOffset : Q).

Abbreviation place := (place series xOffset).
Abbreviation placed := (placed series xOffset).
Abbreviation placed_upto := (placed_upto series xOffset).
Abbreviation pixels pts := ((λ p, plotX (placed p)) <$> pts).

Lemma rank_S P k :
  rank P (S k) = if same P (S k) then rank P k + 1 else 0.
Proof. reflexivity. Qed.

Lemma rank_base P k : same P k = false → rank P k = 0.
Proof. destruct k; [done|]. rewrite rank_S. by intros ->. Qed.

Lemma rank_nonneg P k : 0 ≤ rank P k.
Proof.
  induction k; [done|]. rewrite rank_S. destruct (same P (S k)); lia.
Qed.

Lemma placed_upto_lookup pts n k :
  placed_upto pts n !! k =
    (λ p, if (k <? n)%nat then
            set_stackIndex
              (if (S k <? n)%nat then stack_final (pixels pts) k
               else stack_own (pixels pts) k)
              (placed p)
          else p) <$> pts !! k.
Proof. unfold placed_upto. by rewrite list_lookup_imap. Qed.

Lemma placed_upto_length pts n : length (placed_upto pts n) = length pts.
Proof. unfold placed_upto. by rewrite length_imap. Qed.

Lemma same_S pts m pm pn :
  pts !! m = Some pm → pts !! S m = Some pn →
  same (pixels pts) (S m) = Qeq_bool (plotX (placed pm)) (plotX (placed pn)).
Proof.
  intros Hm Hn. unfold same. by rewrite !list_lookup_fmap, Hm, Hn.
Qed.

Lemma placed_upto_lt pts n k p :
  pts !! k = Some p → (S k < n)%nat →
  placed_upto pts n !! k =
    Some (set_stackIndex (stack_final (pixels pts) k) (placed p)).
Proof.
  intros Hp Hk. rewrite placed_upto_lookup, Hp.
  assert ((k <? n)%nat = true) as -> by (apply Nat.ltb_lt; lia).
  assert ((S k <? n)%nat = true) as -> by (apply Nat.ltb_lt; lia).
  done.
Qed.

Lemma placed_upto_last pts n p :
  pts !! n = Some p →
  placed_upto pts (S n) !! n =
    Some (set_stackIndex (stack_own (pixels pts) n) (placed p)).
Proof.
  intros Hp. rewrite placed_upto_lookup, Hp.
  assert ((n <? S n)%nat = true) as -> by (apply Nat.ltb_lt; lia).
  by rewrite Nat.ltb_irrefl.
Qed.

Lemma placed_upto_ge pts n k :
  (n ≤ k)%nat → placed_upto pts n !! k = pts !! k.
Proof.
  intros Hk. rewrite placed_upto_lookup.
  assert ((k <? n)%nat = false) as -> by (apply Nat.ltb_ge; lia).
  by destruct (pts !! k).
Qed.

Lemma place_unfold points i point :
  points !! i = Some point →
  place points i =
    match JS.index points (Z.of_nat i - 1) with
    | Some lastPoint =>
      if Qeq_bool (plotX lastPoint) (plotX (placed point)) then
        let lastPoint :=
          match stackIndex lastPoint with
          | None => set_stackIndex (Some 0) lastPoint
          | Some _ => lastPoint
          end in
        <[i := set_stackIndex ((λ s, s + 1) <$> stackIndex lastPoint)
                 (placed point)]>
          (<[Nat.pred i := lastPoint]> points)
      else <[i := set_stackIndex None (placed point)]> points
    | None => <[i := set_stackIndex None (placed point)]> points
    end.
Proof. intros Hp. unfold place. by rewrite Hp. Qed.

Lemma place_step pts n :
  (n < length pts)%nat →
  place (placed_upto pts n) n = placed_upto pts (S n).
Proof.
  intros Hn. destruct (lookup_lt_is_Some_2 pts n Hn) as [pn Hpn].
  rewrite (place_unfold _ n pn) by (by rewrite placed_upto_ge).
  apply list_eq. intros c.
  destruct n as [|m].
  - change (JS.index (placed_upto pts 0) (Z.of_nat 0 - 1)) with (@None Point).
    destruct c as [|c].
    + rewrite list_lookup_insert_eq by (rewrite placed_upto_length; lia).
      by rewrite (placed_upto_last _ 0 pn).
    + rewrite list_lookup_insert_ne by done.
      by rewrite !placed_upto_ge by lia.
  - replace (Z.of_nat (S m) - 1) with (Z.of_nat m) by lia.
    destruct (lookup_lt_is_Some_2 pts m ltac:(lia)) as [pm Hpm].
    rewrite index_nat, (placed_upto_last _ m pm) by done.
    change (plotX (set_stackIndex ?s ?p)) with (plotX p).
    rewrite <- (same_S pts m pm pn Hpm Hpn).
    destruct (same (pixels pts) (S m)) eqn:Hsame; cbv zeta.
    + destruct (decide (c = S m)) as [->|Hc1].
      { rewrite list_lookup_insert_eq
          by (rewrite length_insert, placed_upto_length; lia).
        rewrite (placed_upto_last _ (S m) pn) by done. do 2 f_equal.
        unfold stack_own. rewrite Hsame, rank_S, Hsame.
        destruct (same (pixels pts) m) eqn:Hm; cbn; [done|].
        by rewrite (rank_base _ _ Hm). }
      rewrite list_lookup_insert_ne by done.
      destruct (decide (c = m)) as [->|Hc2].
      { rewrite list_lookup_insert_eq by (rewrite placed_upto_length; lia).
        rewrite (placed_upto_lt _ _ m pm) by (done || lia). f_equal.
        unfold stack_own, stack_final. rewrite Hsame.
        by destruct (same (pixels pts) m). }
      rewrite list_lookup_insert_ne by done.
      destruct (decide (c < m)%nat).
      * destruct (lookup_lt_is_Some_2 pts c ltac:(lia)) as [pc Hpc].
        by rewrite !(placed_upto_lt _ _ c pc) by (done || lia).
      * by rewrite !placed_upto_ge by lia.
    + destruct (decide (c = S m)) as [->|Hc1].
      { rewrite list_lookup_insert_eq by (rewrite placed_upto_length; lia).
        rewrite (placed_upto_last _ (S m) pn) by done.
        unfold stack_own. by rewrite Hsame. }
      rewrite list_lookup_insert_ne by done.
      destruct (decide (c = m)) as [->|Hc2].
      { rewrite (placed_upto_last _ m pm) by done.
        rewrite (placed_upto_lt _ _ m pm) by (done || lia).
        unfold stack_own, stack_final. by rewrite Hsame. }
      destruct (decide (c < m)%nat).
      * destruct (lookup_lt_is_Some_2 pts c ltac:(lia)) as [pc Hpc].
        by rewrite !(placed_upto_lt _ _ c pc) by (done || lia).
      * by rewrite !placed_upto_ge by lia.
Qed.

Lemma placed_upto_0 pts : placed_upto pts 0 = pts.
Proof.
  apply list_eq. intros c. rewrite placed_upto_lookup.
  by destruct (pts !! c).
Qed.

Lemma each_place_prefix pts n :
  (n ≤ length pts)%nat →
  foldl place pts (seq 0 n) = placed_upto pts n.
Proof.
  induction n as [|n IH]; intros Hn.
  - by rewrite placed_upto_0.
  - rewrite seq_S, foldl_app. cbn. rewrite IH by lia.
    apply place_step. lia.
Qed.

(** The state of every point after the [each] loop. *)
Lemma each_place_lookup pts k :
  each place pts !! k =
    (λ p, set_stackIndex (stack_final (pixels pts) k) (placed p)) <$> pts !! k.
Proof.
  unfold each. rewrite each_place_prefix by lia.
  destruct (pts !! k) as [p|] eqn:Hp; cbn.
  2: { by rewrite placed_upto_lookup, Hp. }
  pose proof (lookup_lt_Some _ _ _ Hp) as Hk.
  destruct (decide (S k < length pts)%nat) as [Hlt|Hlast].
  { by rewrite (placed_upto_lt _ _ k p). }
  assert (length pts = S k) as Hlen by lia. rewrite Hlen.
  rewrite (placed_upto_last _ k p) by done. do 2 f_equal.
  unfold stack_own, stack_final.
  destruct (same (pixels pts) k); [done|].
  assert (same (pixels pts) (S k) = false) as ->; [|done].
  unfold same. rewrite (lookup_ge_None_2 _ (S k)); [by case_match|].
  rewrite length_fmap. lia.
Qed.
End PlaceFacts.

(** ** Loops that rewrite one element per turn *)

Lemma each_pointwise {A} (f : nat → A → A) (fn : list A → nat → list A) :
  (∀ l i a, l !! i = Some a → fn l i = <[i := f i a]> l) →
  ∀ l, each fn l = imap f l.
Proof.
  intros Hfn l. unfold each.
  assert (∀ n, (n ≤ length l)%nat →
    foldl fn l (seq 0 n) = imap (λ i a, if (i <? n)%nat then f i a else a) l)
    as Hprefix.
  { induction n as [|n IH]; intros Hn.
    - change (foldl fn l (seq 0 0)) with l.
      apply list_eq. intros i. rewrite list_lookup_imap.
      destruct (l !! i); reflexivity.
    - rewrite seq_S, foldl_app. cbn [foldl]. rewrite IH by lia.
      destruct (lookup_lt_is_Some_2 l n ltac:(lia)) as [a Ha].
      rewrite (Hfn _ n a); cycle 1.
      { by rewrite list_lookup_imap, Ha, Nat.ltb_irrefl. }
      apply list_eq. intros i. rewrite list_lookup_imap.
      destruct (decide (i = n)) as [->|Hi].
      + rewrite list_lookup_insert_eq by (rewrite length_imap; lia).
        rewrite Ha.
        by assert ((n <? S n)%nat = true) as -> by (apply Nat.ltb_lt; lia).
      + rewrite list_lookup_insert_ne by done. rewrite list_lookup_imap.
        destruct (l !! i); [|done].
        destruct (Nat.ltb_spec i n), (Nat.ltb_spec i (S n)); try lia; done. }
  rewrite Hprefix by lia. apply list_eq. intros i.
  rewrite !list_lookup_imap. destruct (l !! i) eqn:Hi; [|done].
  apply lookup_lt_Some in Hi.
  by assert ((i <? length l)%nat = true) as -> by (apply Nat.ltb_lt; lia).
Qed.

(** ** The loop of [drawPoints] *)

Lemma drawPoints_loop_S strokeWidth series i pts :
  drawPoints_loop strokeWidth series (S i) pts =
    match pts !! i with
    | Some point =>
      drawPoints_loop strokeWidth series i
        (<[i := drawPoint strokeWidth series point]> pts)
    | None => drawPoints_loop strokeWidth series i pts
    end.
Proof. reflexivity. Qed.

Section DrawFacts.
Variable strokeWidth : Graphic → Q.

Abbreviation drawPoint := (drawPoint strokeWidth).
Abbreviation drawPoints := (drawPoints strokeWidth).
Abbreviation drawPoints_loop := (drawPoints_loop strokeWidth).

Lemma drawPoints_loop_lookup series n : ∀ pts k,
  (n ≤ length pts)%nat →
  drawPoints_loop series n pts !! k =
    if (k <? n)%nat then drawPoint series <$> pts !! k else pts !! k.
Proof.
  induction n as [|n IH]; intros pts k Hn; [done|].
  rewrite drawPoints_loop_S.
  destruct (lookup_lt_is_Some_2 pts n ltac:(lia)) as [p Hp]. rewrite Hp.
  rewrite IH by (rewrite length_insert; lia).
  destruct (decide (k = n)) as [->|Hk].
  - rewrite Nat.ltb_irrefl.
    assert ((n <? S n)%nat = true) as -> by (apply Nat.ltb_lt; lia).
    rewrite list_lookup_insert_eq by lia. by rewrite Hp.
  - rewrite list_lookup_insert_ne by done.
    destruct (Nat.ltb_spec k n), (Nat.ltb_spec k (S n)); try lia; done.
Qed.

(** [drawPoints] handles every point on its own. *)
Lemma drawPoints_lookup series k :
  points (drawPoints series) !! k = drawPoint series <$> points series !! k.
Proof.
  unfold drawPoints. cbn. rewrite drawPoints_loop_lookup by done.
  destruct (points series !! k) eqn:Hk.
  - apply lookup_lt_Some in Hk.
    by assert ((k <? length (points series))%nat = true) as ->
      by (apply Nat.ltb_lt; lia).
  - by destruct (k <? _)%nat.
Qed.

Lemma drawPoint_plotY series p : plotY (drawPoint series p) = plotY p.
Proof. unfold drawPoint. by repeat case_match. Qed.

Lemma drawPoint_stackIndex series p :
  stackIndex (drawPoint series p) = stackIndex p.
Proof. unfold drawPoint. by repeat case_match. Qed.

Lemma drawPoint_plotX series p : plotX (drawPoint series p) = plotX p.
Proof. unfold drawPoint. by repeat case_match. Qed.

Lemma drawPoint_graphic series p g :
  graphic (drawPoint series p) = Some g →
  ∃ py g0 px,
    plotY p = Some py ∧
    g = attr_plant
          (JS.or_str
             (JS.or_opt_str (po_title (point_options p))
                            (title (options series))) "A")
          px
          (py + opt_y (options series)
           - match stackIndex p with
             | Some s => inject_Z s * stackDistance (options series)
             | None => 0
             end)%Q
          (match stackIndex p with
           | Some s => if s =? 0 then Some (plotX p) else None
           | None => Some (plotX p)
           end)
          (match stackIndex p with
           | Some s => if s =? 0 then plotY p else None
           | None => plotY p
           end) g0.
Proof.
  unfold drawPoint. destruct (plotY p) as [py|]; cbn.
  - destruct (Qle_bool 0 (plotX p) && _); cbn.
    + intros [= <-]. eexists py, _, _. split; [done|].
      destruct (stackIndex p) as [n|]; [|done]. by destruct (n =? 0).
    + destruct (graphic p) eqn:E; cbn; intros ?; congruence.
  - destruct (graphic p) eqn:E; cbn; intros ?; congruence.
Qed.

Lemma drawPoint_drawn series p :
  drawn series p → is_Some (graphic (drawPoint series p)).
Proof.
  intros ([py Hpy] & H0 & Hlen). unfold drawPoint. rewrite Hpy. cbn.
  apply Qle_bool_iff in H0, Hlen. unfold JS.Qlt_bool. by rewrite H0, Hlen.
Qed.

Lemma drawPoint_undrawn series p :
  plotY p = None → graphic (drawPoint series p) = None.
Proof.
  intros Hp. unfold drawPoint. rewrite Hp. cbn.
  by destruct (graphic p) eqn:E.
Qed.
End DrawFacts.

(** ** The mouse-over listener *)

Arguments reverted : simpl never.

Lemma revert_each k pts : each (revert k) pts = imap (reverted k) pts.
Proof.
  apply each_pointwise. intros l i a Ha. unfold revert, reverted. rewrite Ha.
  destruct (graphic a); [|by rewrite list_insert_id].
  destruct (negb (i =? k)%nat && raised a); [done|by rewrite list_insert_id].
Qed.

Lemma reverted_self k p : reverted k k p = p.
Proof.
  unfold reverted. rewrite Nat.eqb_refl. cbn. by destruct (graphic p).
Qed.

Lemma reverted_not_raised k j p :
  j ≠ k → marker_raised (reverted k j p) = false.
Proof.
  intros Hj. unfold reverted, marker_raised.
  destruct (graphic p) as [g|] eqn:Hg.
  - destruct (Nat.eqb_spec j k); [done|]. cbn.
    destruct (raised p) eqn:Hr; cbn; [done|]. by rewrite Hr.
  - rewrite Hg. rewrite bool_decide_eq_false_2; [apply andb_false_r|].
    by intros [? ?].
Qed.

Lemma mouseover_self k pts p g :
  pts !! k = Some p → graphic p = Some g →
  mouseover k pts !! k = Some (raise p g).
Proof.
  intros Hp Hg. unfold mouseover, raise. rewrite Hp, Hg, revert_each.
  rewrite list_lookup_imap.
  pose proof (lookup_lt_Some _ _ _ Hp).
  destruct (stackIndex p) as [s|]; cbn.
  - destruct ((0 <? s) && negb (raised p)).
    + rewrite list_lookup_insert_eq by done. cbn. by rewrite reverted_self.
    + rewrite Hp. cbn. by rewrite reverted_self.
  - rewrite Hp. cbn. by rewrite reverted_self.
Qed.

Lemma mouseover_other k j pts p g :
  pts !! k = Some p → graphic p = Some g → j ≠ k →
  mouseover k pts !! j = reverted k j <$> pts !! j.
Proof.
  intros Hp Hg Hj. unfold mouseover. rewrite Hp, Hg, revert_each.
  rewrite list_lookup_imap.
  destruct (_ && negb (raised p)); [|done].
  by rewrite list_lookup_insert_ne.
Qed.

Lemma mouseover_no_listener k pts :
  pts !! k ≫= graphic = None → mouseover k pts = pts.
Proof.
  unfold mouseover. destruct (pts !! k) as [p|]; cbn; [|done]. by intros ->.
Qed.

(** After the listener of point [k] has run, no other marker is raised. *)
Lemma mouseover_only k j pts q :
  is_Some (pts !! k ≫= graphic) →
  mouseover k pts !! j = Some q → marker_raised q = true → j = k.
Proof.
  intros [g Hg] Hq Hr.
  destruct (pts !! k) as [p|] eqn:Hp; [cbn in Hg|done].
  destruct (decide (j = k)) as [|Hj]; [done|].
  rewrite (mouseover_other k j pts p g) in Hq by done.
  destruct (pts !! j) as [pj|]; [|done]. cbn in Hq. simplify_eq.
  by rewrite reverted_not_raised in Hr.
Qed.

Lemma mouseover_at_most_one k pts :
  at_most_one_raised pts → at_most_one_raised (mouseover k pts).
Proof.
  intros Hpts. destruct (pts !! k ≫= graphic) as [g|] eqn:Hg.
  - intros i j pi pj Hi Hj Hri Hrj.
    rewrite (mouseover_only k i pts pi), (mouseover_only k j pts pj); done.
  - by rewrite mouseover_no_listener.
Qed.

Lemma mouseovers_at_most_one events : ∀ pts,
  at_most_one_raised pts → at_most_one_raised (mouseovers events pts).
Proof.
  unfold mouseovers.
  induction events as [|k events IH]; intros pts Hpts; [done|].
  cbn. by apply IH, mouseover_at_most_one.
Qed.

(** ** The relation to the master series *)

Lemma last_index_spec {A} (P : A → bool) (arr : list A) : ∀ n j,
  last_index P n arr = Some j →
  (n ≤ j)%nat ∧
  (∃ a, arr !! (j - n)%nat = Some a ∧ P a = true) ∧
  ∀ (j' : nat) a', (j < j')%nat → arr !! (j' - n)%nat = Some a' → P a' = false.
Proof.
  induction arr as [|a arr IH]; intros n j Hj; [done|].
  cbn in Hj. destruct (last_index P (S n) arr) as [j0|] eqn:Hrest.
  - simplify_eq. destruct (IH _ _ Hrest) as (Hle & (a0 & Ha0 & HP) & Hlast).
    split; [lia|]. split.
    + exists a0. split; [|done].
      replace (j - n)%nat with (S (j - S n)) by lia. done.
    + intros j' a' Hj' Ha'. apply (Hlast j'); [done|].
      replace (j' - n)%nat with (S (j' - S n)) in Ha' by lia. done.
  - destruct (P a) eqn:HP; [|done]. simplify_eq.
    split; [done|]. split.
    + exists a. by rewrite Nat.sub_diag.
    + intros j' a' Hj' Ha'.
      replace (j' - j)%nat with (S (j' - S j)) in Ha' by lia. cbn in Ha'.
      assert (∀ m i b, last_index P m arr = None → arr !! i = Some b →
                       P b = false) as Hnone.
      { clear. induction arr as [|c arr IH]; intros m i b Hm Hb; [done|].
        cbn in Hm. destruct (last_index P (S m) arr) eqn:E; [done|].
        destruct (P c) eqn:Hc; [done|].
        destruct i; cbn in Hb; [by simplify_eq|]. by eapply IH. }
      by eapply Hnone.
Qed.

Lemma nearest_spec onData px j :
  nearest onData px = Some j →
  (∃ lp, onData !! j = Some lp ∧ (on_x lp <= px)%Q) ∧
  ∀ (j' : nat) lp', (j < j')%nat → onData !! j' = Some lp' →
                    (px < on_x lp')%Q.
Proof.
  intros H. apply last_index_spec in H as (_ & (lp & Hlp & Hle) & Hlast).
  rewrite Nat.sub_0_r in Hlp. split.
  - exists lp. split; [done|]. by apply Qle_bool_iff.
  - intros j' lp' Hj' Hlp'. apply Qnot_le_lt. intros Hle'.
    apply Qle_bool_iff in Hle'.
    rewrite (Hlast j' lp') in Hle'; [done..|]. by rewrite Nat.sub_0_r.
Qed.

Lemma matched_spec onKey onData p j :
  matched onKey onData p = Some j →
  (∃ lp v, onData !! j = Some lp ∧ matches onKey lp p = Some v) ∧
  ∀ (j' : nat) lp', (j < j')%nat → onData !! j' = Some lp' →
                    matches onKey lp' p = None.
Proof.
  intros H. apply last_index_spec in H as (_ & (lp & Hlp & Hm) & Hlast).
  rewrite Nat.sub_0_r in Hlp. split.
  - apply bool_decide_eq_true in Hm as [v Hv]. by exists lp, v.
  - intros j' lp' Hj' Hlp'. specialize (Hlast j' lp' Hj').
    rewrite Nat.sub_0_r in Hlast. specialize (Hlast Hlp').
    apply bool_decide_eq_false in Hlast.
    destruct (matches onKey lp' p) eqn:E; [|done].
    destruct Hlast. by eexists.
Qed.

Lemma last_index_None {A} (P : A → bool) (arr : list A) : ∀ n,
  (∀ a, a ∈ arr → P a = false) → last_index P n arr = None.
Proof.
  induction arr as [|a arr IH]; intros n Hall; [done|]. cbn.
  rewrite IH by (intros b Hb; apply Hall; by right).
  by rewrite Hall by left.
Qed.

Lemma last_index_complete {A} (P : A → bool) (arr : list A) : ∀ n (j : nat) a,
  arr !! j = Some a → P a = true →
  (∀ (j' : nat) a', (j < j')%nat → arr !! j' = Some a' → P a' = false) →
  last_index P n arr = Some (n + j)%nat.
Proof.
  induction arr as [|b arr IH]; intros n j a Ha HP Hlast; [done|].
  destruct j as [|j]; cbn in Ha |- *.
  - simplify_eq. rewrite last_index_None, HP; [by rewrite Nat.add_0_r|].
    intros c Hc. apply list_elem_of_lookup in Hc as [i Hi].
    apply (Hlast (S i)); [lia|done].
  - rewrite (IH (S n) j a Ha HP).
    + f_equal. lia.
    + intros j' a' Hj' Ha'. apply (Hlast (S j')); [lia|done].
Qed.

Lemma strictly_ascending_lookup onData (a b : nat) pa pb :
  strictly_ascending onData = true → (a < b)%nat →
  onData !! a = Some pa → onData !! b = Some pb → (on_x pa < on_x pb)%Q.
Proof.
  revert a b. induction onData as [|c onData IH]; intros a b Hasc Hab Ha Hb;
    [done|].
  cbn in Hasc. apply andb_true_iff in Hasc as [Hc Hasc].
  destruct a as [|a], b as [|b]; cbn in Ha, Hb; try lia.
  - simplify_eq. rewrite forallb_forall in Hc.
    apply Qlt_bool_iff, Hc. apply list_elem_of_In. by eapply list_elem_of_lookup_2.
  - apply (IH a b); [done|lia|done..].
Qed.

(** In a reference series in strictly ascending order of [x], a flag on
    the [x] of a reference point with a defined channel value is matched
    with that point. *)
Lemma matched_exact onKey onData (j : nat) rp v p :
  strictly_ascending onData = true →
  onData !! j = Some rp → on_plot rp !! onKey = Some v →
  (x p == on_x rp)%Q →
  matched onKey onData p = Some j.
Proof.
  intros Hasc Hrp Hv Heq. unfold matched.
  rewrite (last_index_complete _ onData 0 j rp); [done|done|..].
  - apply bool_decide_eq_true. exists v. apply matches_Some.
    split; [|done]. rewrite Heq. apply Qle_refl.
  - intros j' lp' Hj' Hlp'. apply bool_decide_eq_false. intros [v' Hv'].
    apply matches_Some in Hv' as [Hle _].
    pose proof (strictly_ascending_lookup onData j j' rp lp' Hasc Hj' Hrp Hlp').
    rewrite Heq in Hle. by apply Qle_not_lt in Hle.
Qed.

Lemma index_last {A} (arr : list A) :
  JS.index arr (Z.of_nat (length arr) - 1) = last arr.
Proof.
  destruct arr as [|a arr] using rev_ind; [done|].
  rewrite length_app, last_snoc. cbn.
  replace (Z.of_nat (length arr + 1) - 1) with (Z.of_nat (length arr)) by lia.
  rewrite index_nat. by rewrite lookup_app_r, Nat.sub_diag by lia.
Qed.

(** What [relate] computes when the series is bound to [os]. *)
Lemma relate_bound_to s os ux :
  bound_to s os → lastX os = Some ux →
  relate s =
    (attach (on_points os) (channel s) (step os) ux
            (length (on_points os) + length (stableSort by_x (points s)))
            (Z.of_nat (length (on_points os)))
            (Z.of_nat (length (points s)) - 1)
            (stableSort by_x (points s)),
     (JS.or_zero (pointXOffset os) + JS.or_zero (barW os) / 2)%Q).
Proof.
  intros (id & Hid & Hne & Hget & Hvis & _) Hux.
  unfold relate. cbv zeta. rewrite Hid. destruct id as [|c id]; [done|].
  change (JS.truthy_str (Some (String c id))) with true. cbv iota.
  change (Some (String c id) ≫= get (chart s)) with (get (chart s) (String c id)).
  rewrite Hget, index_last, Hvis.
  unfold lastX in Hux. destruct (last (on_points os)) as [l|]; [|done].
  cbn in Hux. simplify_eq. reflexivity.
Qed.

Lemma translate_points columnTranslate s :
  points (translate columnTranslate s) =
    each (place (columnTranslate s) (relate (columnTranslate s)).2)
         (relate (columnTranslate s)).1.
Proof. unfold translate. by destruct (relate (columnTranslate s)). Qed.

(** Every point of the translated series is the point the attachment
    left at that index, placed, and ranked in its stack. *)
Lemma translate_lookup columnTranslate s k :
  let s0 := columnTranslate s in
  points (translate columnTranslate s) !! k =
    (λ p, set_stackIndex
            (stack_final
               ((λ p, plotX (placed s0 (relate s0).2 p)) <$> (relate s0).1) k)
            (placed s0 (relate s0).2 p)) <$> (relate s0).1 !! k.
Proof. cbv zeta. by rewrite translate_points, each_place_lookup. Qed.

Lemma placed_plotY_Some s xOffset p v :
  plotY p = Some v → plotY (placed s xOffset p) = Some v.
Proof. intros H. unfold placed, fallback. by rewrite H. Qed.

(** The attachment of the flag at index [k] of the sorted points. *)
Lemma relate_lookup s os ux k j p lp v :
  bound_to s os → lastX os = Some ux →
  stableSort by_x (points s) !! k = Some p →
  on_points os !! j = Some lp →
  matches (channel s) lp p = Some v →
  (∀ (j' : nat) lp', (j < j')%nat → on_points os !! j' = Some lp' →
                     matches (channel s) lp' p = None) →
  (relate s).1 !! k =
    Some (if Qle_bool (x p) ux
          then bind (on_points os) (channel s) (step os) (Z.of_nat j) lp v p
          else p).
Proof.
  intros Hb Hux Hp Hlp Hm Hlast. rewrite (relate_bound_to s os ux) by done.
  cbn [fst].
  pose proof (lookup_lt_Some _ _ _ Hp) as Hk.
  pose proof (lookup_lt_Some _ _ _ Hlp) as Hj.
  rewrite stableSort_length in Hk.
  apply attach_at; try done.
  - rewrite stableSort_length. lia.
  - intros c q Hkc _ Hq. by apply (stableSort_ascending (points s) k c).
  - lia.
  - rewrite stableSort_length. lia.
Qed.

(** ** From the attachment to the translated series *)

Lemma x_placed s xOffset p : x (placed s xOffset p) = x p.
Proof. unfold placed, fallback. by repeat case_match. Qed.

Lemma plotY_placed s xOffset p :
  plotY (placed s xOffset p) = plotY (fallback s p).
Proof. reflexivity. Qed.

Lemma shapeArgs_placed s xOffset p :
  shapeArgs (placed s xOffset p) = shapeArgs (fallback s p).
Proof. reflexivity. Qed.


(** The list of pixels that the stacking compares is the list of the
    final [plotX] values. *)
Lemma translate_pixels columnTranslate s :
  let s0 := columnTranslate s in
  plotX <$> points (translate columnTranslate s) =
    (λ p, plotX (placed s0 (relate s0).2 p)) <$> (relate s0).1.
Proof.
  cbv zeta. apply list_eq. intros k.
  rewrite !list_lookup_fmap, translate_lookup. cbv zeta.
  by destruct ((relate (columnTranslate s)).1 !! k).
Qed.

Lemma translate_stackIndex columnTranslate s k q :
  let F := points (translate columnTranslate s) in
  F !! k = Some q → stackIndex q = stack_final (plotX <$> F) k.
Proof.
  cbv zeta. intros Hq. rewrite translate_pixels. cbv zeta.
  rewrite translate_lookup in Hq. cbv zeta in Hq.
  destruct ((relate (columnTranslate s)).1 !! k); [|done].
  cbn in Hq. by simplify_eq.
Qed.

Lemma same_on_pixel (F : list Point) k :
  same (plotX <$> F) k = true ↔ on_pixel_of_predecessor F k.
Proof.
  unfold same, on_pixel_of_predecessor. destruct k as [|k'].
  { split; [done|]. by intros (? & ? & ? & ? & _). }
  rewrite !list_lookup_fmap. split.
  - destruct (F !! k') as [q'|] eqn:Hq'; [|done].
    destruct (F !! S k') as [q|] eqn:Hq; [|done]. cbn.
    intros H. apply Qeq_bool_iff in H. by exists k', q', q.
  - intros (k0 & q' & q & [= <-] & Hq' & Hq & Heq). rewrite Hq', Hq. cbn.
    by apply Qeq_bool_iff.
Qed.

Lemma drawTracker_spec s (k : nat) :
  k ∈ drawTracker s ↔ ∃ p g, points s !! k = Some p ∧ graphic p = Some g.
Proof.
  unfold drawTracker. rewrite list_elem_of_filter, elem_of_seq. split.
  - intros [[g Hg] _]. destruct (points s !! k) as [p|]; [|done].
    by exists p, g.
  - intros (p & g & Hp & Hg). split.
    + exists g. by rewrite Hp.
    + apply lookup_lt_Some in Hp. lia.
Qed.

(** * The claims *)

(** C1. A flag of a series bound to a visible reference series, lying
    within the effective range of that series: if the nearest reference
    point with [x <= flag.x] has a defined channel value and lies strictly
    left of the flag, the reference series is not in step mode, and the
    next reference point exists with a defined channel value, then the
    flag's [plotY] after [translate] is the linear interpolation
    [left + ((flag.x - left.x) / (right.x - left.x)) * (right - left)] of
    the two channel values (and the divisor is positive). *)
Theorem C1_interpolation
    (columnTranslate : Series → Series) (s : Series) (os : OnSeries) (ux : Q)
    (k j : nat) (p : Point) (leftPoint rightPoint : OnPoint) (l r : Q) :
  let s0 := columnTranslate s in
  bound_to s0 os →
  lastX os = Some ux →
  stableSort by_x (points s0) !! k = Some p →
  (x p <= ux)%Q →
  nearest (on_points os) (x p) = Some j →
  on_points os !! j = Some leftPoint →
  on_plot leftPoint !! channel s0 = Some l →
  (on_x leftPoint < x p)%Q →
  step os = false →
  on_points os !! S j = Some rightPoint →
  on_plot rightPoint !! channel s0 = Some r →
  ∃ q, points (translate columnTranslate s) !! k = Some q ∧
       x q = x p ∧
       plotY q =
         Some (l + ((x p - on_x leftPoint) / (on_x rightPoint - on_x leftPoint))
                   * (r - l))%Q ∧
       (0 < on_x rightPoint - on_x leftPoint)%Q.
Proof.
  intros s0 Hb Hux Hp Hrange Hnear Hleft Hl Hlt Hstep Hright Hr.
  apply nearest_spec in Hnear as [(lp & Hlp & Hle) Hafter].
  assert (lp = leftPoint) as -> by congruence.
  assert (matches (channel s0) leftPoint p = Some l) as Hm.
  { by apply matches_Some. }
  assert (∀ (j' : nat) lp', (j < j')%nat → on_points os !! j' = Some lp' →
                            matches (channel s0) lp' p = None) as Hnone.
  { intros j' lp' Hj' Hlp'. specialize (Hafter j' lp' Hj' Hlp').
    destruct (matches (channel s0) lp' p) eqn:E; [|done].
    apply matches_Some in E as [E _]. by apply Qle_not_lt in E. }
  pose proof (relate_lookup s0 os ux k j p leftPoint l Hb Hux Hp Hleft Hm Hnone)
    as Hrel.
  apply Qle_bool_iff in Hrange. rewrite Hrange in Hrel.
  pose proof (translate_lookup columnTranslate s k) as Hfinal.
  cbv zeta in Hfinal. fold s0 in Hfinal. rewrite Hrel in Hfinal.
  eexists. split; [exact Hfinal|]. cbn [x plotY set_stackIndex].
  split; [by rewrite x_placed|]. split.
  - apply placed_plotY_Some. unfold bind.
    assert (JS.Qlt_bool (on_x leftPoint) (x p) = true) as ->.
    { unfold JS.Qlt_bool. apply negb_true_iff.
      destruct (Qle_bool (x p) (on_x leftPoint)) eqn:E; [|done].
      apply Qle_bool_iff in E. by apply Qle_not_lt in E. }
    rewrite Hstep.
    replace (Z.of_nat j + 1) with (Z.of_nat (S j)) by lia.
    by rewrite index_nat, Hright, Hr.
  - specialize (Hafter (S j) rightPoint ltac:(lia) Hright).
    rewrite <- (Qplus_opp_r (on_x leftPoint)).
    apply Qplus_lt_l. by apply Qlt_trans with (x p).
Qed.

(** The scenario of the specification: reference points at [x = 0]
    ([plotHigh = 100]) and [x = 10] ([plotHigh = 120]), a flag at [x = 5]
    bound to the [high] key: [plotY] is [110]. *)
Lemma C1_interpolation_witness :
  ∃ q, points (translate Scenario.column_translate Scenario.flags) !! 0%nat
         = Some q ∧
       x q = 5%Q ∧
       plotY q = Some (100 + ((5 - 0) / (10 - 0)) * (120 - 100))%Q ∧
       (100 + ((5 - 0) / (10 - 0)) * (120 - 100) == 110)%Q.
Proof.
  destruct (C1_interpolation Scenario.column_translate Scenario.flags
              Scenario.master 10 0 0 (Scenario.flag_at 5)
              {| on_x := 0; on_plot := {[ "plotHigh"%string := 100%Q ]} |}
              {| on_x := 10; on_plot := {[ "plotHigh"%string := 120%Q ]} |}
              100 120)
    as (q & Hq & Hx & Hy & _); try reflexivity.
  - exists "master"%string. repeat split; done.
  - discriminate.
  - exists q. repeat split; assumption || reflexivity.
Defined.

(** C2. In a series bound to a reference series, every flag (within the
    effective range) that is matched with the reference point
    [onData[j]] is bound against that point, however many flags share
    it: the loop does not consume the reference point.  When the flag's
    [x] equals the [x] of that reference point, the flag's [plotY] is
    exactly the channel value of the point, without interpolation.  In a
    reference series in strictly ascending order of [x], every flag
    whose [x] equals the [x] of a reference point with a defined channel
    value is matched with that point, and gets exactly its value. *)
Theorem C2_exact_match
    (columnTranslate : Series → Series) (s : Series) (os : OnSeries) (ux : Q)
    (j : nat) (rp : OnPoint) (v : Q) :
  let s0 := columnTranslate s in
  bound_to s0 os →
  lastX os = Some ux →
  on_points os !! j = Some rp →
  on_plot rp !! channel s0 = Some v →
  (∀ (k : nat) p,
     stableSort by_x (points s0) !! k = Some p →
     (x p <= ux)%Q →
     matched (channel s0) (on_points os) p = Some j →
     ∃ q, points (translate columnTranslate s) !! k = Some q ∧
          plotY q =
            plotY (bind (on_points os) (channel s0) (step os) (Z.of_nat j)
                        rp v p) ∧
          ((x p == on_x rp)%Q → plotY q = Some v)) ∧
  (strictly_ascending (on_points os) = true →
   ∀ (k : nat) p,
     stableSort by_x (points s0) !! k = Some p →
     (x p <= ux)%Q →
     (x p == on_x rp)%Q →
     ∃ q, points (translate columnTranslate s) !! k = Some q ∧
          plotY q = Some v).
Proof.
  intros s0 Hb Hux Hrp Hv.
  assert (∀ (k : nat) p,
     stableSort by_x (points s0) !! k = Some p →
     (x p <= ux)%Q →
     matched (channel s0) (on_points os) p = Some j →
     ∃ q, points (translate columnTranslate s) !! k = Some q ∧
          plotY q =
            plotY (bind (on_points os) (channel s0) (step os) (Z.of_nat j)
                        rp v p) ∧
          ((x p == on_x rp)%Q → plotY q = Some v)) as Hshared.
  { intros k p Hp Hrange Hmatched.
    apply matched_spec in Hmatched as [(lp & v' & Hlp & Hm) Hnone].
    assert (lp = rp) as -> by congruence.
    assert (v' = v) as ->.
    { apply matches_Some in Hm as [_ Hm]. congruence. }
    pose proof (relate_lookup s0 os ux k j p rp v Hb Hux Hp Hrp Hm Hnone)
      as Hrel.
    apply Qle_bool_iff in Hrange. rewrite Hrange in Hrel.
    pose proof (translate_lookup columnTranslate s k) as Hfinal.
    cbv zeta in Hfinal. fold s0 in Hfinal. rewrite Hrel in Hfinal.
    eexists. split; [exact Hfinal|]. cbn [plotY set_stackIndex].
    split.
    - by apply placed_plotY_Some.
    - intros Heq. apply placed_plotY_Some. unfold bind.
      assert (JS.Qlt_bool (on_x rp) (x p) = false) as ->; [|done].
      unfold JS.Qlt_bool. apply negb_false_iff, Qle_bool_iff.
      rewrite Heq. apply Qle_refl. }
  split; [exact Hshared|].
  intros Hasc k p Hp Hrange Heq.
  destruct (Hshared k p Hp Hrange) as (q & Hq & _ & Hy).
  { by apply (matched_exact _ _ j rp v). }
  exists q. split; [done|]. by apply Hy.
Qed.

(** Two flags at [x = 10], the [x] of the second reference point, whose
    [plotHigh] is [120]: both get [plotY = 120]. *)
Lemma C2_exact_match_witness :
  (∃ q, points (translate Scenario.column_translate Scenario.flags) !! 1%nat
          = Some q ∧ plotY q = Some 120%Q) ∧
  (∃ q, points (translate Scenario.column_translate Scenario.flags) !! 2%nat
          = Some q ∧ plotY q = Some 120%Q).
Proof.
  destruct (C2_exact_match Scenario.column_translate Scenario.flags
              Scenario.master 10 1
              {| on_x := 10; on_plot := {[ "plotHigh"%string := 120%Q ]} |}
              120)
    as [_ Hexact]; try reflexivity.
  { exists "master"%string. repeat split; done. }
  split.
  - apply (Hexact eq_refl 1%nat (Scenario.flag_at 10));
      reflexivity || discriminate.
  - apply (Hexact eq_refl 2%nat (Scenario.flag_at 10));
      reflexivity || discriminate.
Defined.

(** C3. A flag whose [x] exceeds the effective upper bound of the
    reference series (the [x] of the last reference point plus the total
    range of the data grouping, if any) is not attachment-bound: the
    attachment loop leaves the point as it was, and its final [plotY]
    and [shapeArgs] are those of the axis fallback. *)
Theorem C3_beyond_upper_bound
    (columnTranslate : Series → Series) (s : Series) (os : OnSeries) (ux : Q)
    (k : nat) (p : Point) :
  let s0 := columnTranslate s in
  bound_to s0 os →
  lastX os = Some ux →
  stableSort by_x (points s0) !! k = Some p →
  (ux < x p)%Q →
  (relate s0).1 !! k = Some p ∧
  ∃ q, points (translate columnTranslate s) !! k = Some q ∧
       plotY q = plotY (fallback s0 p) ∧
       shapeArgs q = shapeArgs (fallback s0 p).
Proof.
  intros s0 Hb Hux Hp Hbeyond.
  assert ((relate s0).1 !! k = Some p) as Hrel.
  { rewrite (relate_bound_to s0 os ux) by done. cbn [fst].
    apply attach_beyond; [done|].
    destruct (Qle_bool (x p) ux) eqn:E; [|done].
    apply Qle_bool_iff in E. by apply Qle_not_lt in E. }
  split; [done|].
  pose proof (translate_lookup columnTranslate s k) as Hfinal.
  cbv zeta in Hfinal. fold s0 in Hfinal. rewrite Hrel in Hfinal.
  eexists. split; [exact Hfinal|]. done.
Qed.

(** A flag at [x = 50] beyond the reference series that ends at
    [x = 10]: it is put on the axis, at [400 - 40 - 0 + 0 - 10]. *)
Lemma C3_beyond_upper_bound_witness :
  ∃ q, points (translate Scenario.column_translate Scenario.flags) !! 3%nat
         = Some q ∧
       plotY q = Some (400 - 40 - 0 + 0 - 10)%Q.
Proof.
  destruct (C3_beyond_upper_bound Scenario.column_translate Scenario.flags
              Scenario.master 10 3 (Scenario.flag_at 50))
    as (_ & q & Hq & Hy & _); try reflexivity.
  - exists "master"%string. repeat split; done.
  - exists q. split; assumption.
Defined.

(** C4 (amended). After [translate], for every point in final order:
    its [stackIndex] is defined and greater than [0] if and only if the
    immediately preceding point has the same pixel [plotX]; it then
    equals the predecessor's [stackIndex] plus [1], where the
    predecessor, if it was unranked, has been given [stackIndex = 0] (so
    the sequence starts at [1]).  A point that does not share the pixel
    of its predecessor has [stackIndex = 0] when its successor shares
    its pixel (it is the base of a stack) and an undefined [stackIndex]
    otherwise. *)
Theorem C4_stack_index
    (columnTranslate : Series → Series) (s : Series) (k : nat) (q : Point) :
  let F := points (translate columnTranslate s) in
  F !! k = Some q →
  ((∃ n, stackIndex q = Some n ∧ 0 < n) ↔ on_pixel_of_predecessor F k) ∧
  (∀ (k' : nat) q',
     k = S k' → F !! k' = Some q' → (plotX q' == plotX q)%Q →
     ∃ n, stackIndex q' = Some n ∧ 0 ≤ n ∧ stackIndex q = Some (n + 1)) ∧
  (¬ on_pixel_of_predecessor F k →
     (on_pixel_of_predecessor F (S k) → stackIndex q = Some 0) ∧
     (¬ on_pixel_of_predecessor F (S k) → stackIndex q = None)).
Proof.
  intros F Hq.
  pose proof (translate_stackIndex columnTranslate s k q Hq) as Hsi.
  fold F in Hsi. unfold stack_final in Hsi.
  split; [|split].
  - rewrite <- same_on_pixel. destruct (same (plotX <$> F) k) eqn:Hsame.
    + split; [done|]. intros _. exists (rank (plotX <$> F) k).
      split; [done|]. destruct k as [|k']; [done|].
      rewrite rank_S, Hsame. pose proof (rank_nonneg (plotX <$> F) k'). lia.
    + split; [|done]. intros (n & Hn & Hpos).
      destruct (same (plotX <$> F) (S k)); simplify_eq; lia.
  - intros k' q' -> Hq' Heq.
    assert (same (plotX <$> F) (S k') = true) as Hsame.
    { apply same_on_pixel. by exists k', q', q. }
    rewrite Hsame, rank_S, Hsame in Hsi.
    pose proof (translate_stackIndex columnTranslate s k' q' Hq') as Hsi'.
    fold F in Hsi'. unfold stack_final in Hsi'. rewrite Hsame in Hsi'.
    exists (rank (plotX <$> F) k'). split; [|split; [apply rank_nonneg|done]].
    destruct (same (plotX <$> F) k') eqn:Hsame'; [done|].
    by rewrite (rank_base _ _ Hsame').
  - intros Hnot.
    assert (same (plotX <$> F) k = false) as Hsame.
    { destruct (same (plotX <$> F) k) eqn:E; [|done].
      by apply same_on_pixel in E. }
    rewrite Hsame in Hsi. rewrite Hsi.
    destruct (same (plotX <$> F) (S k)) eqn:Hnext.
    + apply same_on_pixel in Hnext. by split.
    + split; [|done]. intros H. apply same_on_pixel in H. congruence.
Qed.

(** The three flags at [x = 50]: the third one has [stackIndex = 2], one
    more than the second. *)
Lemma C4_stack_index_witness :
  ∃ q' q, points (translate Scenario.column_translate Scenario.flags) !! 4%nat
            = Some q' ∧
          points (translate Scenario.column_translate Scenario.flags) !! 5%nat
            = Some q ∧
          stackIndex q' = Some 1 ∧ stackIndex q = Some 2.
Proof.
  assert (∃ q', points (translate Scenario.column_translate Scenario.flags)
                  !! 4%nat = Some q') as [q' Hq']
    by (vm_compute; by eexists).
  assert (∃ q, points (translate Scenario.column_translate Scenario.flags)
                 !! 5%nat = Some q) as [q Hq]
    by (vm_compute; by eexists).
  destruct (C4_stack_index Scenario.column_translate Scenario.flags 5 q Hq)
    as (_ & Hpred & _).
  destruct (Hpred 4%nat q' eq_refl Hq') as (n & Hn' & _ & Hn).
  { vm_compute in Hq', Hq. injection Hq' as <-. injection Hq as <-.
    vm_compute. reflexivity. }
  exists q', q. split; [exact Hq'|]. split; [exact Hq|].
  vm_compute in Hq'. injection Hq' as <-.
  rewrite Hn. vm_compute in Hn'. injection Hn' as <-. split; reflexivity.
Defined.

(** C4 as stated fails at the base of a stack: of the two flags at
    [x = 10], the first has the defined [stackIndex = 0] although the
    point before it, at [x = 5], is on another pixel. *)
Lemma C4_counterexample :
  let F := points (translate Scenario.column_translate Scenario.flags) in
  ¬ (∀ (k : nat) q,
       F !! k = Some q →
       (is_Some (stackIndex q) ↔ on_pixel_of_predecessor F k)).
Proof.
  intros F Hclaim.
  assert (∃ q, F !! 1%nat = Some q ∧ stackIndex q = Some 0) as (q & Hq & Hs).
  { vm_compute. eexists. split; reflexivity. }
  destruct (Hclaim 1%nat q Hq) as [Hdefined _].
  destruct Hdefined as (k' & q0' & q0 & Hk & Hq0' & Hq0 & Heq);
    [by rewrite Hs|].
  injection Hk as <-.
  vm_compute in Hq0', Hq0. injection Hq0' as <-. injection Hq0 as <-.
  vm_compute in Heq. discriminate.
Qed.

(** C5. The stacking offset is applied at draw time only.  [translate]
    stores the [plotY] of the attachment or of the axis fallback, with
    no stacking term; [drawPoints], on any series, leaves [plotY] (and
    [stackIndex]) of every point as they are, and the [y] of the graphic
    of a drawn point is [plotY] plus the [y] option minus [stackIndex]
    times [stackDistance] (minus nothing for an unranked point). *)
Theorem C5_stack_offset_at_draw_time
    (strokeWidth : Graphic → Q) (columnTranslate : Series → Series)
    (s : Series) :
  let s0 := columnTranslate s in
  (∀ (k : nat) a,
     (relate s0).1 !! k = Some a →
     ∃ p, points (translate columnTranslate s) !! k = Some p ∧
          plotY p = plotY (fallback s0 a)) ∧
  (∀ (t : Series) (k : nat) p,
     points t !! k = Some p →
     ∃ q,
       points (drawPoints strokeWidth t) !! k = Some q ∧
       plotY q = plotY p ∧
       stackIndex q = stackIndex p ∧
       (drawn t p →
        ∃ py g,
          plotY p = Some py ∧ graphic q = Some g ∧
          g_y g =
            Some (py + opt_y (options t)
                  - match stackIndex p with
                    | Some n => inject_Z n * stackDistance (options t)
                    | None => 0
                    end)%Q)).
Proof.
  intros s0. split.
  - intros k a Ha.
    pose proof (translate_lookup columnTranslate s k) as Hp.
    cbv zeta in Hp. fold s0 in Hp. rewrite Ha in Hp.
    eexists. split; [exact Hp|]. done.
  - intros t k p Hp.
    pose proof (drawPoints_lookup strokeWidth t k) as Hq. rewrite Hp in Hq.
    eexists. split; [exact Hq|].
    split; [apply drawPoint_plotY|]. split; [apply drawPoint_stackIndex|].
    intros Hdrawn. destruct (drawPoint_drawn strokeWidth t _ Hdrawn) as [g Hg].
    destruct (drawPoint_graphic strokeWidth t _ g Hg)
      as (py & g0 & px & Hpy & ->).
    eexists py, _. split; [exact Hpy|]. split; [exact Hg|]. reflexivity.
Qed.

(** The three flags at [x = 50] with the default [stackDistance = 12]
    and [y = -30], on the axis at [plotY = 350]: the graphics are at
    [320], [320 - 12] and [320 - 24], and [plotY] stays [350]. *)
Lemma C5_stack_offset_at_draw_time_witness :
  let d := drawPoints Scenario.stroke_width
             (translate Scenario.column_translate Scenario.flags) in
  ∃ q3 q4 q5 g3 g4 g5 y3 y4 y5,
    points d !! 3%nat = Some q3 ∧ points d !! 4%nat = Some q4 ∧
    points d !! 5%nat = Some q5 ∧
    graphic q3 = Some g3 ∧ graphic q4 = Some g4 ∧ graphic q5 = Some g5 ∧
    g_y g3 = Some y3 ∧ g_y g4 = Some y4 ∧ g_y g5 = Some y5 ∧
    (y3 == 320)%Q ∧ (y4 == 320 - 12)%Q ∧ (y5 == 320 - 24)%Q ∧
    plotY q3 = Some 350%Q ∧ plotY q4 = Some 350%Q ∧ plotY q5 = Some 350%Q.
Proof.
  intros d.
  pose (t := translate Scenario.column_translate Scenario.flags).
  destruct (C5_stack_offset_at_draw_time Scenario.stroke_width
              Scenario.column_translate Scenario.flags) as [_ Hdraw].
  assert (∃ p3 p4 p5,
            points t !! 3%nat = Some p3 ∧ points t !! 4%nat = Some p4 ∧
            points t !! 5%nat = Some p5 ∧
            drawn t p3 ∧ drawn t p4 ∧ drawn t p5 ∧
            stackIndex p3 = Some 0 ∧ stackIndex p4 = Some 1 ∧
            stackIndex p5 = Some 2 ∧
            plotY p3 = Some 350%Q ∧ plotY p4 = Some 350%Q ∧
            plotY p5 = Some 350%Q)
    as (p3 & p4 & p5 & Hp3 & Hp4 & Hp5 & Hd3 & Hd4 & Hd5
        & Hs3 & Hs4 & Hs5 & Hy3 & Hy4 & Hy5).
  { vm_compute. eexists _, _, _.
    repeat split; solve [reflexivity | by eexists | discriminate]. }
  destruct (Hdraw t 3%nat p3 Hp3) as (q3 & Hq3 & Hf3 & _ & Hdrawn3).
  destruct (Hdraw t 4%nat p4 Hp4) as (q4 & Hq4 & Hf4 & _ & Hdrawn4).
  destruct (Hdraw t 5%nat p5 Hp5) as (q5 & Hq5 & Hf5 & _ & Hdrawn5).
  destruct (Hdrawn3 Hd3) as (py3 & g3 & Hpy3 & Hg3 & Hgy3).
  destruct (Hdrawn4 Hd4) as (py4 & g4 & Hpy4 & Hg4 & Hgy4).
  destruct (Hdrawn5 Hd5) as (py5 & g5 & Hpy5 & Hg5 & Hgy5).
  rewrite Hs3 in Hgy3. rewrite Hs4 in Hgy4. rewrite Hs5 in Hgy5.
  assert (py3 = 350%Q) as -> by congruence.
  assert (py4 = 350%Q) as -> by congruence.
  assert (py5 = 350%Q) as -> by congruence.
  eexists q3, q4, q5, g3, g4, g5, _, _, _.
  split; [exact Hq3|]. split; [exact Hq4|]. split; [exact Hq5|].
  split; [exact Hg3|]. split; [exact Hg4|]. split; [exact Hg5|].
  split; [exact Hgy3|]. split; [exact Hgy4|]. split; [exact Hgy5|].
  split; [vm_compute; reflexivity|]. split; [vm_compute; reflexivity|].
  split; [vm_compute; reflexivity|].
  split; [congruence|]. split; congruence.
Defined.

(** C6. In [drawPoints], a drawn point with [stackIndex] greater than
    [0] has the anchor of its connector suppressed ([anchorX] and
    [anchorY] undefined); a point of rank [0], or without a rank, keeps
    the anchor at its own [plotX] and [plotY]. *)
Theorem C6_anchor_only_at_rank_0
    (strokeWidth : Graphic → Q) (s : Series) (k : nat) (p q : Point)
    (g : Graphic) :
  points s !! k = Some p →
  points (drawPoints strokeWidth s) !! k = Some q →
  graphic q = Some g →
  (∀ n, stackIndex p = Some n → 0 < n →
        g_anchorX g = None ∧ g_anchorY g = None) ∧
  (stackIndex p = None ∨ stackIndex p = Some 0 →
   g_anchorX g = Some (plotX p) ∧
   ∃ py, plotY p = Some py ∧ g_anchorY g = Some py).
Proof.
  intros Hp Hq Hg. rewrite drawPoints_lookup, Hp in Hq. cbn in Hq.
  injection Hq as <-.
  destruct (drawPoint_graphic strokeWidth s p g Hg)
    as (py & g0 & px & Hpy & ->).
  cbn [g_anchorX g_anchorY attr_plant]. split.
  - intros n -> Hn. destruct (Z.eqb_spec n 0); [lia|done].
  - intros [->| ->]; (split; [done|]); by exists py.
Qed.

(** The three flags at [x = 50]: the base keeps its anchor, the flag of
    rank [2] has none. *)
Lemma C6_anchor_only_at_rank_0_witness :
  let d := drawPoints Scenario.stroke_width
             (translate Scenario.column_translate Scenario.flags) in
  ∃ q3 q5 g3 g5,
    points d !! 3%nat = Some q3 ∧ points d !! 5%nat = Some q5 ∧
    graphic q3 = Some g3 ∧ graphic q5 = Some g5 ∧
    is_Some (g_anchorX g3) ∧ is_Some (g_anchorY g3) ∧
    g_anchorX g5 = None ∧ g_anchorY g5 = None.
Proof.
  intros d.
  pose (t := translate Scenario.column_translate Scenario.flags).
  assert (∃ p3 q3 g3, points t !! 3%nat = Some p3 ∧
                      points d !! 3%nat = Some q3 ∧ graphic q3 = Some g3 ∧
                      stackIndex p3 = Some 0)
    as (p3 & q3 & g3 & Hp3 & Hq3 & Hg3 & Hs3)
    by (vm_compute; eexists _, _, _; repeat split; reflexivity).
  assert (∃ p5 q5 g5, points t !! 5%nat = Some p5 ∧
                      points d !! 5%nat = Some q5 ∧ graphic q5 = Some g5 ∧
                      stackIndex p5 = Some 2)
    as (p5 & q5 & g5 & Hp5 & Hq5 & Hg5 & Hs5)
    by (vm_compute; eexists _, _, _; repeat split; reflexivity).
  destruct (C6_anchor_only_at_rank_0 Scenario.stroke_width t 3 p3 q3 g3
              Hp3 Hq3 Hg3) as [_ Hbase].
  destruct (C6_anchor_only_at_rank_0 Scenario.stroke_width t 5 p5 q5 g5
              Hp5 Hq5 Hg5) as [Hhigher _].
  destruct (Hbase (or_intror Hs3)) as (Hax & py & _ & Hay).
  destruct (Hhigher 2 Hs5 eq_refl) as [Hax5 Hay5].
  exists q3, q5, g3, g5. rewrite Hax, Hay, Hax5, Hay5.
  split; [exact Hq3|]. split; [exact Hq5|].
  split; [exact Hg3|]. split; [exact Hg5|].
  split; [by eexists|]. split; [by eexists|]. split; reflexivity.
Defined.

(** C7. An unattached flag (no [plotY] after the attachment) whose [x]
    lies outside the extremes of the x axis: [translate] leaves [plotY]
    undefined and sets [shapeArgs] to the empty object; after
    [drawPoints] the point has no graphic, whether or not it had one. *)
Theorem C7_outside_extremes
    (strokeWidth : Graphic → Q) (columnTranslate : Series → Series)
    (s : Series) (k : nat) (p : Point) :
  let s0 := columnTranslate s in
  (relate s0).1 !! k = Some p →
  plotY p = None →
  (x p < ext_min (xAxis s0) ∨ ext_max (xAxis s0) < x p)%Q →
  ∃ q, points (translate columnTranslate s) !! k = Some q ∧
       plotY q = None ∧
       shapeArgs q = ∅ ∧
       ∃ q', points (drawPoints strokeWidth (translate columnTranslate s)) !! k
               = Some q' ∧
             graphic q' = None.
Proof.
  intros s0 Hp Hy Hout.
  pose proof (translate_lookup columnTranslate s k) as Hfinal.
  cbv zeta in Hfinal. fold s0 in Hfinal. rewrite Hp in Hfinal.
  assert (fallback s0 p = set_shapeArgs ∅ p) as Hfb.
  { unfold fallback. rewrite Hy.
    assert (Qle_bool (ext_min (xAxis s0)) (x p)
            && Qle_bool (x p) (ext_max (xAxis s0)) = false) as ->; [|done].
    apply andb_false_iff. destruct Hout as [Hout|Hout]; [left|right].
    - destruct (Qle_bool _ _) eqn:E; [|done].
      apply Qle_bool_iff in E. by apply Qle_not_lt in E.
    - destruct (Qle_bool _ _) eqn:E; [|done].
      apply Qle_bool_iff in E. by apply Qle_not_lt in E. }
  eexists. split; [exact Hfinal|].
  cbn [plotY shapeArgs set_stackIndex].
  rewrite plotY_placed, shapeArgs_placed, Hfb. cbn.
  split; [done|]. split; [done|].
  pose proof (drawPoints_lookup strokeWidth (translate columnTranslate s) k)
    as Hdraw.
  rewrite Hfinal in Hdraw.
  eexists. split; [exact Hdraw|]. apply drawPoint_undrawn.
  cbn [plotY set_stackIndex]. by rewrite plotY_placed, Hfb.
Qed.

(** The flag at [x = 200] on an axis that shows [0 .. 100]. *)
Lemma C7_outside_extremes_witness :
  ∃ q, points (translate Scenario.column_translate Scenario.flags) !! 6%nat
         = Some q ∧
       plotY q = None ∧
       shapeArgs q = ∅ ∧
       ∃ q', points (drawPoints Scenario.stroke_width
                       (translate Scenario.column_translate Scenario.flags))
               !! 6%nat = Some q' ∧
             graphic q' = None.
Proof.
  apply (C7_outside_extremes Scenario.stroke_width Scenario.column_translate
           Scenario.flags 6 (Scenario.flag_at 200)).
  - reflexivity.
  - reflexivity.
  - right. reflexivity.
Defined.

(** C8. The mouse-over listener that [drawTracker] registers on the
    graphic of point [k]: a stacked marker ([stackIndex > 0]) that is not
    raised yet is moved up by exactly [8] pixels from its [y], which is
    stored in [_y]; every other raised marker is put back to its stored
    [_y] and is no longer raised; afterwards no marker but that of point
    [k] is raised, so that along any sequence of pointer-over events at
    most one marker of the series is raised. *)
Theorem C8_raise_on_mouseover (s : Series) (k : nat) :
  k ∈ drawTracker s →
  ∃ p g,
    points s !! k = Some p ∧ graphic p = Some g ∧
    (∀ n y0,
       stackIndex p = Some n → 0 < n → raised p = false → g_y g = Some y0 →
       ∃ q g', mouseover k (points s) !! k = Some q ∧ raised q = true ∧
               _y q = Some y0 ∧ graphic q = Some g' ∧
               g_y g' = Some (y0 - 8)%Q) ∧
    (∀ (j : nat) pj gj,
       j ≠ k → points s !! j = Some pj → raised pj = true →
       graphic pj = Some gj →
       ∃ q g', mouseover k (points s) !! j = Some q ∧ raised q = false ∧
               graphic q = Some g' ∧ g_y g' = _y pj) ∧
    (∀ (j : nat) q,
       mouseover k (points s) !! j = Some q → marker_raised q = true →
       j = k) ∧
    (∀ events,
       at_most_one_raised (points s) →
       at_most_one_raised (mouseovers events (points s))).
Proof.
  intros Hk. apply drawTracker_spec in Hk as (p & g & Hp & Hg).
  exists p, g. split; [done|]. split; [done|].
  split; [|split; [|split]].
  - intros n y0 Hn Hpos Hr Hy. rewrite (mouseover_self k _ p g) by done.
    unfold raise. rewrite Hn, Hr, Hy.
    assert ((0 <? n) = true) as -> by (apply Z.ltb_lt; lia). cbn.
    by eexists _, _.
  - intros j pj gj Hj Hpj Hr Hgj.
    rewrite (mouseover_other k j _ p g), Hpj by done. cbn.
    unfold reverted. rewrite Hgj, Hr.
    destruct (Nat.eqb_spec j k); [done|]. cbn. by eexists _, _.
  - intros j q. apply mouseover_only. by rewrite Hp.
  - intros events. apply mouseovers_at_most_one.
Qed.

(** The stack of three flags at [x = 50], drawn at [320], [308] and
    [296]: after the pointer has been over the flag of rank [2], a
    pointer-over on the flag of rank [1] raises that one to [300] and
    puts the other back to [296]. *)
Lemma C8_raise_on_mouseover_witness :
  let pts := points Scenario.hovered_flags in
  ∃ q4 q5 g4 g5 y4 y5,
    mouseover 4 pts !! 4%nat = Some q4 ∧ mouseover 4 pts !! 5%nat = Some q5 ∧
    raised q4 = true ∧ raised q5 = false ∧
    graphic q4 = Some g4 ∧ graphic q5 = Some g5 ∧
    g_y g4 = Some y4 ∧ g_y g5 = Some y5 ∧
    (y4 == 308 - 8)%Q ∧ (y5 == 296)%Q.
Proof.
  intros pts.
  destruct (C8_raise_on_mouseover Scenario.hovered_flags 4)
    as (p4 & g4 & Hp4 & Hg4 & Hraise & Hrevert & _ & _).
  { apply drawTracker_spec. vm_compute. by eexists _, _. }
  assert (∃ y4, stackIndex p4 = Some 1 ∧ raised p4 = false ∧
                g_y g4 = Some y4 ∧ (y4 == 308)%Q)
    as (y4 & Hs4 & Hr4 & Hy4 & Hy4eq).
  { vm_compute in Hp4. injection Hp4 as <-.
    vm_compute in Hg4. injection Hg4 as <-.
    vm_compute. eexists. repeat split; reflexivity. }
  assert (∃ p5 g5 y5, pts !! 5%nat = Some p5 ∧ graphic p5 = Some g5 ∧
                      raised p5 = true ∧ _y p5 = Some y5 ∧ (y5 == 296)%Q)
    as (p5 & g5 & y5 & Hp5 & Hg5 & Hr5 & Hy5 & Hy5eq)
    by (vm_compute; eexists _, _, _; repeat split; reflexivity).
  destruct (Hraise 1 y4 Hs4 eq_refl Hr4 Hy4)
    as (q4 & g4' & Hq4 & Hr4' & _ & Hg4' & Hy4').
  destruct (Hrevert 5%nat p5 g5 ltac:(discriminate) Hp5 Hr5 Hg5)
    as (q5 & g5' & Hq5 & Hr5' & Hg5' & Hy5').
  exists q4, q5, g4', g5', (y4 - 8)%Q, y5.
  split; [exact Hq4|]. split; [exact Hq5|].
  split; [exact Hr4'|]. split; [exact Hr5'|].
  split; [exact Hg4'|]. split; [exact Hg5'|].
  split; [exact Hy4'|]. split; [by rewrite Hy5'|].
  split; [by rewrite Hy4eq|exact Hy5eq].
Defined.

(** C9 (amended). The shape that [circlepin] produces is never taller
    than it is wide: the base circle is called with a box whose width is
    at least the height [h].  When [h] exceeds the width [w], the width
    is widened to [h], so that the circle has width equal to height, and
    [x] is shifted left by [Math.round((h - w) / 2)], half the difference
    rounded to the nearest integer (within one half of the exact half);
    otherwise the box is left as it is. *)
Theorem C9_circlepin_box
    (symbols : string → Q → Q → Q → Q → list PathItem) (x y w h : Q)
    (options : option SymbolOptions) :
  let box := pin_box "circle" x w h in
  (∃ connector,
     circlepin symbols x y w h options =
       symbols "circle"%string box.1 y box.2 h ++ connector) ∧
  (h <= box.2)%Q ∧
  ((w < h)%Q →
   box = ((x - JS.round ((h - w) / 2))%Q, h) ∧
   ((h - w) / 2 - (1 # 2) < JS.round ((h - w) / 2) <= (h - w) / 2 + (1 # 2))%Q)
  ∧
  ((h <= w)%Q → box = (x, w)).
Proof.
  intros box. split; [|split; [|split]].
  - unfold circlepin, pin. fold box. destruct box as [x' w']. cbn [fst snd].
    destruct (options ≫= anchorX) as [ax|];
      [|by exists []; rewrite app_nil_r].
    destruct (options ≫= anchorY) as [ay|];
      [|by exists []; rewrite app_nil_r].
    destruct (negb (Qeq_bool ax 0) && negb (Qeq_bool ay 0));
      [by eexists|by exists []; rewrite app_nil_r].
  - unfold box, pin_box. cbn [String.eqb Ascii.eqb Bool.eqb andb].
    destruct (JS.Qlt_bool w h) eqn:E; cbn [snd]; [apply Qle_refl|].
    apply Qnot_lt_le. intros Hlt. apply Qlt_bool_iff in Hlt. congruence.
  - intros Hlt. split; [|apply round_bounds].
    unfold box, pin_box. apply Qlt_bool_iff in Hlt. by rewrite Hlt.
  - intros Hle. unfold box, pin_box.
    destruct (JS.Qlt_bool w h) eqn:E; [|done].
    apply Qlt_bool_iff in E. by apply Qle_not_lt in Hle.
Qed.

(** A label of width [2] and height [5] at [x = 0]: the circle gets the
    box of width [5] at [x = -2]. *)
Lemma C9_circlepin_box_witness :
  circlepin Scenario.box_symbol 0 0 2 5 None =
    Scenario.box_symbol "circle" (0 - JS.round ((5 - 2) / 2)) 0 5 5 ∧
  (JS.round ((5 - 2) / 2) == 2)%Q.
Proof.
  destruct (C9_circlepin_box Scenario.box_symbol 0 0 2 5 None)
    as (_ & _ & Hwiden & _).
  destruct (Hwiden eq_refl) as [Hbox _].
  unfold circlepin, pin. rewrite Hbox. split; reflexivity.
Defined.

(** C9 as stated fails where the difference of height and width is odd:
    for [w = 2] and [h = 5] the shift is [2], not half the difference
    [3 / 2]. *)
Lemma C9_counterexample :
  ¬ (∀ x w h : Q,
       (w < h)%Q → ((pin_box "circle" x w h).1 == x - (h - w) / 2)%Q).
Proof.
  intros Hclaim. specialize (Hclaim 0%Q 2%Q 5%Q eq_refl).
  vm_compute in Hclaim. discriminate.
Qed.

(** C10. The text of the label of a drawn flag: the [title] option of
    the point when it is set (defined and not empty), otherwise the
    [title] option of the series when that is set, otherwise ["A"]. *)
Theorem C10_label_text
    (strokeWidth : Graphic → Q) (s : Series) (k : nat) (p q : Point)
    (g : Graphic) :
  points s !! k = Some p →
  points (drawPoints strokeWidth s) !! k = Some q →
  graphic q = Some g →
  (∀ t, po_title (point_options p) = Some t → t ≠ EmptyString →
        g_text g = t) ∧
  (JS.truthy_str (po_title (point_options p)) = false →
   ∀ t, title (options s) = Some t → t ≠ EmptyString → g_text g = t) ∧
  (JS.truthy_str (po_title (point_options p)) = false →
   JS.truthy_str (title (options s)) = false →
   g_text g = "A"%string).
Proof.
  intros Hp Hq Hg. rewrite drawPoints_lookup, Hp in Hq. cbn in Hq.
  injection Hq as <-.
  destruct (drawPoint_graphic strokeWidth s p g Hg)
    as (py & g0 & px & Hpy & ->).
  cbn [g_text attr_plant]. unfold JS.or_opt_str. split; [|split].
  - intros t -> Ht. by destruct t.
  - intros -> t -> Ht. by destruct t.
  - intros -> Hs. by destruct (title (options s)) as [[|]|].
Qed.

(** The flags of the scenario have no title, nor has the series: the
    label reads ["A"]. *)
Lemma C10_label_text_witness :
  let d := drawPoints Scenario.stroke_width
             (translate Scenario.column_translate Scenario.flags) in
  ∃ q g, points d !! 0%nat = Some q ∧ graphic q = Some g ∧
         g_text g = "A"%string.
Proof.
  intros d.
  pose (t := translate Scenario.column_translate Scenario.flags).
  assert (∃ p q g, points t !! 0%nat = Some p ∧
                   points d !! 0%nat = Some q ∧ graphic q = Some g ∧
                   JS.truthy_str (po_title (point_options p)) = false ∧
                   JS.truthy_str (title (options t)) = false)
    as (p & q & g & Hp & Hq & Hg & Hpoint & Hseries)
    by (vm_compute; eexists _, _, _; repeat split; reflexivity).
  destruct (C10_label_text Scenario.stroke_width t 0 p q g Hp Hq Hg)
    as (_ & _ & Hdefault).
  exists q, g. split; [exact Hq|]. split; [exact Hg|].
  by apply Hdefault.
Defined.

(** * Further properties of the code *)

(** ** What the attachment loop can do to a point *)

Section AttachCases.
Variables (onData : list OnPoint) (onKey : string) (step : bool) (lastX : Q).

Lemma attach_cases fuel : ∀ i cursor pts (c : nat) p,
pts !! c = Some p →
attach onData onKey step lastX fuel i cursor pts !! c = Some p ∨
∃ (j : nat) lp v,
  onData !! j = Some lp ∧ matches onKey lp p = Some v ∧
  Qle_bool (x p) lastX = true ∧
  attach onData onKey step lastX fuel i cursor pts !! c =
    Some (bind onData onKey step (Z.of_nat j) lp v p).
Proof.
induction fuel as [|fuel IH]; intros i cursor pts c p Hc; simpl;
  [by left|].
destruct (i =? 0); [by left|].
destruct (JS.index pts cursor) as [point|] eqn:Hpoint; [|by left].
apply index_Some in Hpoint as [Hcur Hpoint].
destruct (JS.index onData (i - 1)) as [lp|] eqn:Hlp; [|by left].
apply index_Some in Hlp as [Hi Hlp].
destruct (matches onKey lp point) as [v|] eqn:Hm; [|by apply IH].
destruct (decide (c = Z.to_nat cursor)) as [->|Hne].
- assert (point = p) as -> by congruence.
  assert (∀ pts' : list Point,
    (if cursor - 1 <? 0 then pts'
     else attach onData onKey step lastX fuel (i - 1 + 1) (cursor - 1) pts')
      !! Z.to_nat cursor = pts' !! Z.to_nat cursor) as ->.
  { intros pts'. destruct (cursor - 1 <? 0); [done|].
    apply attach_above. lia. }
  destruct (Qle_bool (x p) lastX) eqn:Hle; [|by left].
  right. exists (Z.to_nat (i - 1)), lp, v.
  rewrite Z2Nat.id by done. repeat split; try done.
  apply list_lookup_insert_eq. by eapply lookup_lt_Some.
- assert ((if Qle_bool (x point) lastX
           then <[Z.to_nat cursor:=bind onData onKey step (i - 1) lp v point]>
                  pts
           else pts) !! c = Some p) as Hc'.
  { destruct (Qle_bool (x point) lastX); [|done].
    by rewrite list_lookup_insert_ne. }
  destruct (cursor - 1 <? 0); [by left|]. by apply IH.
Qed.
End AttachCases.

Lemma set_plotY_id p : set_plotY (plotY p) p = p.
Proof. by destruct p. Qed.


(** The flag at index [k] of the sorted points, matched with the
    reference point [j] and within [lastX], after [translate]. *)
Lemma translate_attached columnTranslate s os ux (k j : nat) p rp v :
  let s0 := columnTranslate s in
  bound_to s0 os → lastX os = Some ux →
  stableSort by_x (points s0) !! k = Some p →
  (x p <= ux)%Q →
  matched (channel s0) (on_points os) p = Some j →
  on_points os !! j = Some rp →
  on_plot rp !! channel s0 = Some v →
  ∃ q, points (translate columnTranslate s) !! k = Some q ∧
       x q = x p ∧
       plotY q =
         plotY (bind (on_points os) (channel s0) (step os) (Z.of_nat j)
                     rp v p).
Proof.
  intros s0 Hb Hux Hp Hrange Hmatched Hrp Hv.
  apply matched_spec in Hmatched as [(lp & v' & Hlp & Hm) Hnone].
  assert (lp = rp) as -> by congruence.
  assert (v' = v) as ->.
  { apply matches_Some in Hm as [_ Hm]. congruence. }
  pose proof (relate_lookup s0 os ux k j p rp v Hb Hux Hp Hrp Hm Hnone)
    as Hrel.
  apply Qle_bool_iff in Hrange. rewrite Hrange in Hrel.
  pose proof (translate_lookup columnTranslate s k) as Hfinal.
  cbv zeta in Hfinal. fold s0 in Hfinal. rewrite Hrel in Hfinal.
  eexists. split; [exact Hfinal|]. cbn [x plotY set_stackIndex].
  split; [by rewrite x_placed|]. by apply placed_plotY_Some.
Qed.

Lemma bound_to_case (id : string) os :
  id ≠ EmptyString →
  Cases.stock_chart.(chart_series) !! id = Some os →
  visible os = true → on_points os ≠ [] →
  bound_to (Scenario.column_translate (Cases.flags_on (Some id))) os.
Proof. intros Hid Hget Hvis Hpts. by exists id. Qed.

(** ** The attachment loop: step mode, gaps, range, termination *)

(** X1. In step mode no interpolation takes place: a flag within the
    effective range takes exactly the channel value of the reference
    point it is matched with, also when it lies strictly right of that
    point and the next point has a value. *)
Theorem X1_step_mode_takes_left_value
    (columnTranslate : Series → Series) (s : Series) (os : OnSeries) (ux : Q)
    (k j : nat) (p : Point) (rp : OnPoint) (v : Q) :
  let s0 := columnTranslate s in
  bound_to s0 os →
  lastX os = Some ux →
  stableSort by_x (points s0) !! k = Some p →
  (x p <= ux)%Q →
  matched (channel s0) (on_points os) p = Some j →
  on_points os !! j = Some rp →
  on_plot rp !! channel s0 = Some v →
  step os = true →
  ∃ q, points (translate columnTranslate s) !! k = Some q ∧
       plotY q = Some v.
Proof.
  intros s0 Hb Hux Hp Hrange Hm Hrp Hv Hstep.
  destruct (translate_attached columnTranslate s os ux k j p rp v
              Hb Hux Hp Hrange Hm Hrp Hv) as (q & Hq & _ & Hy).
  exists q. split; [done|]. rewrite Hy. unfold bind. rewrite Hstep.
  by rewrite andb_false_r.
Qed.

(** The flag at [x = 5] between the reference points at [0] and [10] of
    a stepped series keeps the value [100] of the left point. *)
Lemma X1_step_mode_takes_left_value_witness :
  ∃ q, points (translate Scenario.column_translate
                 (Cases.flags_on (Some "stepped"%string))) !! 1%nat = Some q ∧
       plotY q = Some 100%Q.
Proof.
  apply (X1_step_mode_takes_left_value Scenario.column_translate
           (Cases.flags_on (Some "stepped"%string)) Cases.stepped 10 1 0
           (Scenario.flag_at 5)
           {| on_x := 0; on_plot := {[ "plotHigh"%string := 100%Q ]} |});
    try (vm_compute; reflexivity).
  - apply bound_to_case; done.
  - vm_compute. discriminate.
Defined.

(** X2. Interpolation needs a right neighbour with a value: when the
    reference point after the matched one is missing (the flag lies in
    the range extension of the last point) or has no value for the
    channel, a flag within the effective range takes exactly the channel
    value of the matched point. *)
Theorem X2_no_right_neighbour_takes_left_value
    (columnTranslate : Series → Series) (s : Series) (os : OnSeries) (ux : Q)
    (k j : nat) (p : Point) (rp : OnPoint) (v : Q) :
  let s0 := columnTranslate s in
  bound_to s0 os →
  lastX os = Some ux →
  stableSort by_x (points s0) !! k = Some p →
  (x p <= ux)%Q →
  matched (channel s0) (on_points os) p = Some j →
  on_points os !! j = Some rp →
  on_plot rp !! channel s0 = Some v →
  (∀ rightPoint, on_points os !! S j = Some rightPoint →
                 on_plot rightPoint !! channel s0 = None) →
  ∃ q, points (translate columnTranslate s) !! k = Some q ∧
       plotY q = Some v.
Proof.
  intros s0 Hb Hux Hp Hrange Hm Hrp Hv Hright.
  destruct (translate_attached columnTranslate s os ux k j p rp v
              Hb Hux Hp Hrange Hm Hrp Hv) as (q & Hq & _ & Hy).
  exists q. split; [done|]. rewrite Hy. unfold bind.
  replace (Z.of_nat j + 1) with (Z.of_nat (S j)) by lia.
  rewrite index_nat.
  destruct (JS.Qlt_bool (on_x rp) (x p) && negb (step os)); [|done].
  destruct (on_points os !! S j) as [rightPoint|] eqn:E; [|done].
  specialize (Hright rightPoint eq_refl). unfold s0 in Hright.
  by rewrite Hright.
Qed.

(** With grouped data the last point at [x = 10] covers the range up to
    [15]: the flag at [x = 12] takes its value [120].  In the series
    whose second point has no [plotHigh], the flag at [x = 5] takes the
    value [100] of the first point. *)
Lemma X2_no_right_neighbour_takes_left_value_witness :
  (∃ q, points (translate Scenario.column_translate
                  (Cases.flags_on (Some "grouped"%string))) !! 2%nat = Some q ∧
        plotY q = Some 120%Q) ∧
  (∃ q, points (translate Scenario.column_translate
                  (Cases.flags_on (Some "gapped"%string))) !! 1%nat = Some q ∧
        plotY q = Some 100%Q).
Proof.
  split.
  - apply (X2_no_right_neighbour_takes_left_value Scenario.column_translate
             (Cases.flags_on (Some "grouped"%string)) Cases.grouped 15 2 1
             (Scenario.flag_at 12)
             {| on_x := 10; on_plot := {[ "plotHigh"%string := 120%Q ]} |});
      try (vm_compute; reflexivity).
    + apply bound_to_case; done.
    + vm_compute. discriminate.
    + intros rightPoint Hright. vm_compute in Hright. discriminate.
  - apply (X2_no_right_neighbour_takes_left_value Scenario.column_translate
             (Cases.flags_on (Some "gapped"%string)) Cases.gapped 10 1 0
             (Scenario.flag_at 5)
             {| on_x := 0; on_plot := {[ "plotHigh"%string := 100%Q ]} |});
      try (vm_compute; reflexivity).
    + apply bound_to_case; done.
    + vm_compute. discriminate.
    + intros rightPoint Hright. vm_compute in Hright.
      injection Hright as <-. vm_compute. reflexivity.
Defined.




(** X4. The attachment touches nothing but [plotY], and binds only
    where a reference point matches: every point after the attachment is
    the sorted point with at most its [plotY] replaced; if it was
    changed, the flag lies within the effective range and is bound
    against a reference point at or left of it that has a value for the
    channel.  In particular a flag that no reference point matches (it
    lies left of all reference points that have a value) is left as it
    was. *)
Theorem X4_attachment_only_binds_matches
    (columnTranslate : Series → Series) (s : Series) (os : OnSeries) (ux : Q)
    (k : nat) (p : Point) :
  let s0 := columnTranslate s in
  bound_to s0 os →
  lastX os = Some ux →
  stableSort by_x (points s0) !! k = Some p →
  ∃ q, (relate s0).1 !! k = Some q ∧
       q = set_plotY (plotY q) p ∧
       (q = p ∨
        (x p <= ux)%Q ∧
        ∃ (j : nat) lp v,
          on_points os !! j = Some lp ∧ (on_x lp <= x p)%Q ∧
          on_plot lp !! channel s0 = Some v ∧
          q = bind (on_points os) (channel s0) (step os) (Z.of_nat j)
                   lp v p) ∧
       ((∀ (j : nat) lp, on_points os !! j = Some lp →
                         matches (channel s0) lp p = None) →
        q = p).
Proof.
  intros s0 Hb Hux Hp.
  rewrite (relate_bound_to s0 os ux) by done. cbn [fst].
  destruct (attach_cases (on_points os) (channel s0) (step os) ux
              (length (on_points os) + length (stableSort by_x (points s0)))
              (Z.of_nat (length (on_points os)))
              (Z.of_nat (length (points s0)) - 1)
              (stableSort by_x (points s0)) k p Hp)
    as [Hsame|(j & lp & v & Hlp & Hm & Hle & Hbound)].
  - exists p. split; [done|]. split; [by rewrite set_plotY_id|].
    split; [by left|done].
  - eexists. split; [exact Hbound|]. split; [done|]. split.
    + right. split; [by apply Qle_bool_iff|].
      apply matches_Some in Hm as [Hx Hv]. by exists j, lp, v.
    + intros Hnone. by rewrite (Hnone j lp Hlp) in Hm.
Qed.

(** The flag at [x = -3], left of the reference points at [0] and [10],
    comes out of the attachment as it went in. *)
Lemma X4_attachment_only_binds_matches_witness :
  (relate (Scenario.column_translate (Cases.flags_on (Some "master"%string)))).1
    !! 0%nat = Some (Scenario.flag_at (-3)).
Proof.
  assert (bound_to (Scenario.column_translate
                      (Cases.flags_on (Some "master"%string)))
                   Scenario.master) as Hb
    by (apply bound_to_case; done).
  assert (stableSort by_x
            (points (Scenario.column_translate
                       (Cases.flags_on (Some "master"%string)))) !! 0%nat
          = Some (Scenario.flag_at (-3))) as Hp
    by (vm_compute; reflexivity).
  destruct (X4_attachment_only_binds_matches Scenario.column_translate
              (Cases.flags_on (Some "master"%string)) Scenario.master 10 0
              (Scenario.flag_at (-3)) Hb eq_refl Hp)
    as (q & Hq & _ & _ & Hnone).
  rewrite Hq. f_equal. apply Hnone.
  intros [|[|j]] lp Hlp; vm_compute in Hlp; [| |discriminate];
    injection Hlp as <-; vm_compute; reflexivity.
Defined.



(** ** [translate]: with and without a master series *)

Lemma relate_master s :
  relate s =
    match master_of s with
    | Some os =>
      match last (on_points os) with
      | Some l =>
        if visible os then
          (attach (on_points os) (channel s) (step os)
                  (on_x l
                   + match currentDataGrouping os with
                     | Some dg => totalRange dg
                     | None => 0
                     end)%Q
                  (length (on_points os)
                   + length (stableSort by_x (points s)))
                  (Z.of_nat (length (on_points os)))
                  (Z.of_nat (length (points s)) - 1)
                  (stableSort by_x (points s)),
           xOffset_on os)
        else (points s, 0%Q)
      | None => (points s, 0%Q)
      end
    | None => (points s, 0%Q)
    end.
Proof.
  unfold relate, master_of. cbv zeta.
  destruct (if JS.truthy_str (onSeries (options s))
            then onSeries (options s) ≫= get (chart s) else None) as [os|];
    [|done].
  by rewrite index_last.
Qed.

Lemma master_of_bound_to s os :
  master_of s = Some os → visible os = true → on_points os ≠ [] →
  bound_to s os.
Proof.
  unfold master_of. intros Hm Hvis Hpts.
  destruct (onSeries (options s)) as [[|c id]|] eqn:Hid; try done.
  cbn in Hm. by exists (String c id).
Qed.

(** Either nothing is attached, or the series is bound to a master. *)
Lemma relate_cases s :
  relate s = (points s, 0%Q) ∨
  ∃ os ux, bound_to s os ∧ lastX os = Some ux.
Proof.
  rewrite relate_master.
  destruct (master_of s) as [os|] eqn:Hm; [|by left].
  destruct (last (on_points os)) as [l|] eqn:Hl; [|by left].
  destruct (visible os) eqn:Hvis; [|by left].
  right. exists os. eexists. split.
  - apply master_of_bound_to; [done..|].
    intros Hnil. by rewrite Hnil in Hl.
  - unfold lastX. by rewrite Hl.
Qed.

(** The attachment keeps every field of a sorted point but [plotY]. *)
Lemma relate_plotY_only s os ux (k : nat) p :
  bound_to s os → lastX os = Some ux →
  stableSort by_x (points s) !! k = Some p →
  ∃ q, (relate s).1 !! k = Some q ∧ q = set_plotY (plotY q) p.
Proof.
  intros Hb Hux Hp. rewrite (relate_bound_to s os ux) by done. cbn [fst].
  destruct (attach_cases (on_points os) (channel s) (step os) ux
              (length (on_points os) + length (stableSort by_x (points s)))
              (Z.of_nat (length (on_points os)))
              (Z.of_nat (length (points s)) - 1)
              (stableSort by_x (points s)) k p Hp)
    as [Hsame|(j & lp & v & _ & _ & _ & Hbound)].
  - exists p. split; [done|]. by rewrite set_plotY_id.
  - eexists. split; [exact Hbound|]. done.
Qed.

Lemma relate_x s : x <$> (relate s).1 ≡ₚ x <$> points s.
Proof.
  destruct (relate_cases s) as [->|(os & ux & Hb & Hux)]; [done|].
  rewrite (relate_bound_to s os ux) by done. cbn [fst].
  by rewrite attach_x, stableSort_perm.
Qed.

Lemma translate_x columnTranslate s :
  x <$> points (translate columnTranslate s)
  = x <$> (relate (columnTranslate s)).1.
Proof.
  apply list_eq. intros k. rewrite !list_lookup_fmap, translate_lookup.
  cbv zeta. destruct ((relate (columnTranslate s)).1 !! k); [cbn|done].
  by rewrite x_placed.
Qed.

(** X6. Without a usable master series nothing is attached: when the
    [onSeries] option is undefined or empty, when the chart has no
    series with that id, when that series is hidden or has no points,
    [translate] keeps the points in their order, shifts no [plotX] (the
    offset is [0]) and decides every [plotY] by the axis fallback
    alone. *)
Theorem X6_no_attachment_without_master
    (columnTranslate : Series → Series) (s : Series) :
  let s0 := columnTranslate s in
  (master_of s0 = None ∨
   ∃ os, master_of s0 = Some os ∧ (visible os = false ∨ on_points os = [])) →
  relate s0 = (points s0, 0%Q) ∧
  ∀ (k : nat) p,
    points s0 !! k = Some p →
    ∃ q, points (translate columnTranslate s) !! k = Some q ∧
         x q = x p ∧
         (plotX q == plotX p)%Q ∧
         plotY q = plotY (fallback s0 p) ∧
         shapeArgs q = shapeArgs (fallback s0 p).
Proof.
  intros s0 Hno.
  assert (relate s0 = (points s0, 0%Q)) as Hrel.
  { rewrite relate_master.
    destruct Hno as [->|(os & -> & [Hvis|Hpts])]; [done|..].
    - rewrite Hvis. by destruct (last (on_points os)).
    - by rewrite Hpts. }
  split; [done|]. intros k p Hp.
  pose proof (translate_lookup columnTranslate s k) as Hfinal.
  cbv zeta in Hfinal. fold s0 in Hfinal. rewrite Hrel in Hfinal.
  cbn [fst snd] in Hfinal. rewrite Hp in Hfinal.
  eexists. split; [exact Hfinal|].
  cbn [x plotX plotY shapeArgs set_stackIndex].
  split; [by rewrite x_placed|]. split; [|done].
  unfold placed. cbn [plotX set_plotX].
  assert (plotX (fallback s0 p) = plotX p) as ->.
  { unfold fallback. by repeat case_match. }
  apply Qplus_0_r.
Qed.

(** The flag at [x = 5] on a hidden master, on an id that the chart does
    not know, and without [onSeries]: it stays at index [2], where the
    data has it, and is put on the axis. *)
Lemma X6_no_attachment_without_master_witness :
  let on_axis id :=
    ∃ q, points (translate Scenario.column_translate (Cases.flags_on id))
           !! 2%nat = Some q ∧
         x q = 5%Q ∧ plotY q = Some (400 - 40 - 0 + 0 - 10)%Q in
  on_axis (Some "hidden"%string) ∧ on_axis (Some "nowhere"%string) ∧
  on_axis None.
Proof.
  intros on_axis.
  assert (∀ id,
            (master_of (Scenario.column_translate (Cases.flags_on id)) = None ∨
             ∃ os, master_of (Scenario.column_translate (Cases.flags_on id))
                   = Some os ∧ (visible os = false ∨ on_points os = [])) →
            on_axis id) as Hcase.
  { intros id Hid.
    destruct (X6_no_attachment_without_master Scenario.column_translate
                (Cases.flags_on id) Hid) as [_ Hpoints].
    destruct (Hpoints 2%nat (Scenario.flag_at 5) eq_refl)
      as (q & Hq & Hx & _ & Hy & _).
    exists q. split; [exact Hq|]. split; [exact Hx|]. exact Hy. }
  split; [|split]; apply Hcase.
  - right. exists Cases.hidden. split; [reflexivity|]. by left.
  - by left.
  - by left.
Defined.

(** X7. [translate] neither loses nor duplicates a flag: the [x] values
    of the translated points are a rearrangement of those of the input,
    and when the series is bound to a master the points come out in
    ascending order of [x]. *)
Theorem X7_translate_keeps_and_sorts_the_flags
    (columnTranslate : Series → Series) (s : Series) :
  let s0 := columnTranslate s in
  x <$> points (translate columnTranslate s) ≡ₚ x <$> points s0 ∧
  length (points (translate columnTranslate s)) = length (points s0) ∧
  ∀ os ux, bound_to s0 os → lastX os = Some ux →
           ascending (points (translate columnTranslate s)).
Proof.
  intros s0.
  assert (x <$> points (translate columnTranslate s) ≡ₚ x <$> points s0)
    as Hperm by (by rewrite translate_x, relate_x).
  split; [done|]. split.
  { apply Permutation_length in Hperm. by rewrite !length_fmap in Hperm. }
  intros os ux Hb Hux a b pa pb Hab Ha Hb'.
  assert (∀ (k : nat) q, points (translate columnTranslate s) !! k = Some q →
            ∃ p, stableSort by_x (points s0) !! k = Some p ∧ x q = x p)
    as Hsorted.
  { intros k q Hq.
    assert ((x <$> points (translate columnTranslate s)) !! k = Some (x q))
      as Hxq by (by rewrite list_lookup_fmap, Hq).
    rewrite translate_x in Hxq. fold s0 in Hxq.
    rewrite (relate_bound_to s0 os ux) in Hxq by done. cbn [fst] in Hxq.
    rewrite attach_x, list_lookup_fmap in Hxq.
    destruct (stableSort by_x (points s0) !! k) as [p|]; [|done].
    cbn in Hxq. exists p. split; [done|]. congruence. }
  destruct (Hsorted a pa Ha) as (pa' & Hpa' & ->).
  destruct (Hsorted b pb Hb') as (pb' & Hpb' & ->).
  by apply (stableSort_ascending (points s0) a b).
Qed.

(** The seven flags of the scenario, given as [50, 5, 50, 200, 10, 50,
    10], come out as [5, 10, 10, 50, 50, 50, 200]. *)
Lemma X7_translate_keeps_and_sorts_the_flags_witness :
  x <$> points (translate Scenario.column_translate Scenario.flags)
  = [5; 10; 10; 50; 50; 50; 200]%Q ∧
  ascending (points (translate Scenario.column_translate Scenario.flags)).
Proof.
  split; [vm_compute; reflexivity|].
  destruct (X7_translate_keeps_and_sorts_the_flags Scenario.column_translate
              Scenario.flags) as (_ & _ & Hasc).
  apply (Hasc Scenario.master 10%Q); [|reflexivity].
  exists "master"%string. repeat split; done.
Defined.

(** X8. A flag on a master series is shifted with the master's columns:
    its final [plotX] is the [plotX] of the column translate plus
    [(pointXOffset || 0) + (barW || 0) / 2] of the master (#2049),
    whether or not the flag itself was bound. *)
Theorem X8_plotX_follows_the_master_columns
    (columnTranslate : Series → Series) (s : Series) (os : OnSeries) (ux : Q)
    (k : nat) (p : Point) :
  let s0 := columnTranslate s in
  bound_to s0 os →
  lastX os = Some ux →
  stableSort by_x (points s0) !! k = Some p →
  ∃ q, points (translate columnTranslate s) !! k = Some q ∧
       x q = x p ∧
       plotX q =
         (plotX p
          + (JS.or_zero (pointXOffset os) + JS.or_zero (barW os) / 2))%Q.
Proof.
  intros s0 Hb Hux Hp.
  destruct (relate_plotY_only s0 os ux k p Hb Hux Hp) as (a & Ha & Hframe).
  pose proof (translate_lookup columnTranslate s k) as Hfinal.
  cbv zeta in Hfinal. fold s0 in Hfinal. rewrite Ha in Hfinal.
  rewrite (relate_bound_to s0 os ux) in Hfinal by done.
  cbn [fst snd fmap option_fmap option_map] in Hfinal.
  eexists. split; [exact Hfinal|]. cbn [x plotX set_stackIndex].
  rewrite x_placed. unfold placed. cbn [plotX set_plotX].
  assert (plotX (fallback s0 a) = plotX a) as ->.
  { unfold fallback. by repeat case_match. }
  rewrite Hframe. done.
Qed.

(** On the master with columns [8] wide and offset by [-4], the flag at
    [x = 12] keeps its pixel: [12 + (-4 + 8 / 2)]. *)
Lemma X8_plotX_follows_the_master_columns_witness :
  ∃ q, points (translate Scenario.column_translate
                 (Cases.flags_on (Some "grouped"%string))) !! 2%nat = Some q ∧
       plotX q = (12 + (-4 + 8 / 2))%Q.
Proof.
  assert (bound_to (Scenario.column_translate
                      (Cases.flags_on (Some "grouped"%string)))
                   Cases.grouped) as Hb
    by (apply bound_to_case; done).
  assert (stableSort by_x
            (points (Scenario.column_translate
                       (Cases.flags_on (Some "grouped"%string)))) !! 2%nat
          = Some (Scenario.flag_at 12)) as Hp
    by (vm_compute; reflexivity).
  destruct (X8_plotX_follows_the_master_columns Scenario.column_translate
              (Cases.flags_on (Some "grouped"%string)) Cases.grouped 15 2
              (Scenario.flag_at 12) Hb eq_refl Hp)
    as (q & Hq & _ & Hx).
  exists q. split; [exact Hq|exact Hx].
Defined.

(** X9. An unattached flag inside the extremes of the x axis is put on
    the axis: its [plotY] becomes [chartHeight - xAxis.bottom -
    (xAxis.opposite ? xAxis.height : 0) + xAxis.offset - yAxis.top]
    (#3517), the extremes themselves included, and its [shapeArgs] stay
    as the column translate computed them. *)
Theorem X9_unattached_flag_on_the_axis
    (columnTranslate : Series → Series) (s : Series) (k : nat) (p : Point) :
  let s0 := columnTranslate s in
  (relate s0).1 !! k = Some p →
  plotY p = None →
  (ext_min (xAxis s0) <= x p)%Q →
  (x p <= ext_max (xAxis s0))%Q →
  ∃ q, points (translate columnTranslate s) !! k = Some q ∧
       plotY q = Some (axisY s0) ∧
       shapeArgs q = shapeArgs p.
Proof.
  intros s0 Hp Hy Hmin Hmax.
  pose proof (translate_lookup columnTranslate s k) as Hfinal.
  cbv zeta in Hfinal. fold s0 in Hfinal. rewrite Hp in Hfinal.
  eexists. split; [exact Hfinal|]. cbn [plotY shapeArgs set_stackIndex].
  rewrite plotY_placed, shapeArgs_placed. unfold fallback. rewrite Hy.
  apply Qle_bool_iff in Hmin, Hmax. by rewrite Hmin, Hmax.
Qed.

(** The flag at [x = 50] beyond the master that ends at [10], on an axis
    that shows [0 .. 100]. *)
Lemma X9_unattached_flag_on_the_axis_witness :
  ∃ q, points (translate Scenario.column_translate Scenario.flags) !! 4%nat
         = Some q ∧
       plotY q = Some (400 - 40 - 0 + 0 - 10)%Q ∧
       shapeArgs q = {[ "x"%string := 50%Q ]}.
Proof.
  assert ((relate (Scenario.column_translate Scenario.flags)).1 !! 4%nat
          = Some (Scenario.flag_at 50)) as Hp by (vm_compute; reflexivity).
  destruct (X9_unattached_flag_on_the_axis Scenario.column_translate
              Scenario.flags 4 (Scenario.flag_at 50) Hp eq_refl)
    as (q & Hq & Hy & Hs).
  - vm_compute. discriminate.
  - vm_compute. discriminate.
  - exists q. split; [exact Hq|]. split; [exact Hy|exact Hs].
Defined.

(** ** [drawPoints]: which points get a graphic, and what it holds *)


Lemma drawPoint_graphic_drawn strokeWidth s p :
  is_Some (graphic (drawPoint strokeWidth s p)) → drawn s p.
Proof.
  unfold drawPoint, drawn. destruct (plotY p) as [py|]; cbn.
  - destruct (Qle_bool 0 (plotX p)) eqn:H0; cbn.
    + unfold JS.Qlt_bool. rewrite negb_involutive.
      destruct (Qle_bool (plotX p) (len (xAxis s))) eqn:Hlen; cbn.
      * intros _. split; [by exists py|]. split; by apply Qle_bool_iff.
      * destruct (graphic p) eqn:E; cbn; rewrite ?E; by intros [? ?].
    + destruct (graphic p) eqn:E; cbn; rewrite ?E; by intros [? ?].
  - destruct (graphic p) eqn:E; cbn; rewrite ?E; by intros [? ?].
Qed.

(** X10. After [drawPoints] a point has a graphic exactly when it is
    drawn: its [plotY] is defined and its [plotX] lies in the visible
    area, from [0] to [xAxis.len].  A point outside loses the graphic it
    had; none is created for it. *)
Theorem X10_graphic_exactly_when_drawn
    (strokeWidth : Graphic → Q) (s : Series) (k : nat) (p : Point) :
  points s !! k = Some p →
  ∃ q, points (drawPoints strokeWidth s) !! k = Some q ∧
       (is_Some (graphic q) ↔ drawn s p).
Proof.
  intros Hp. pose proof (drawPoints_lookup strokeWidth s k) as Hq.
  rewrite Hp in Hq. eexists. split; [exact Hq|]. split.
  - apply drawPoint_graphic_drawn.
  - apply drawPoint_drawn.
Qed.

(** The point at [x = 5] is drawn and has a graphic; the point at
    [x = 200] has no [plotY] and has none. *)
Lemma X10_graphic_exactly_when_drawn_witness :
  let t := translate Scenario.column_translate Scenario.flags in
  ∃ q0 q6,
    points (drawPoints Scenario.stroke_width t) !! 0%nat = Some q0 ∧
    points (drawPoints Scenario.stroke_width t) !! 6%nat = Some q6 ∧
    is_Some (graphic q0) ∧ graphic q6 = None.
Proof.
  intros t.
  assert (∃ p0 p6, points t !! 0%nat = Some p0 ∧ points t !! 6%nat = Some p6 ∧
                   drawn t p0 ∧ plotY p6 = None)
    as (p0 & p6 & Hp0 & Hp6 & Hd0 & Hy6).
  { vm_compute. eexists _, _. split; [reflexivity|]. split; [reflexivity|].
    split; [|reflexivity]. split; [by eexists|]. split; discriminate. }
  destruct (X10_graphic_exactly_when_drawn Scenario.stroke_width t 0 p0 Hp0)
    as (q0 & Hq0 & Hiff0).
  destruct (X10_graphic_exactly_when_drawn Scenario.stroke_width t 6 p6 Hp6)
    as (q6 & Hq6 & Hiff6).
  exists q0, q6. split; [exact Hq0|]. split; [exact Hq6|].
  split; [by apply Hiff0|].
  destruct (graphic q6) eqn:Hg; [|reflexivity].
  destruct Hiff6 as [Hdrawn _]. destruct Hdrawn as [[py Hpy] _]; [by eexists|].
  congruence.
Defined.

Lemma drawPoint_undrawn_eq strokeWidth s p :
  ¬ drawn s p →
  drawPoint strokeWidth s p
  = match graphic p with
    | Some _ => set_graphic None p
    | None => p
    end.
Proof.
  intros Hnot. unfold drawPoint.
  destruct (plotY p) as [py|] eqn:Hy; cbn [fmap option_fmap option_map];
    [|done].
  destruct (Qle_bool 0 (plotX p)
            && negb (JS.Qlt_bool (len (xAxis s)) (plotX p))) eqn:Hc; [|done].
  destruct Hnot. apply andb_true_iff in Hc as [H0 Hlen].
  unfold JS.Qlt_bool in Hlen. rewrite negb_involutive in Hlen.
  split; [by exists py|]. split; by apply Qle_bool_iff.
Qed.

Lemma drawPoint_idempotent strokeWidth s p :
  (∀ text px py ax ay g,
     strokeWidth (attr_plant text px py ax ay g) = strokeWidth g) →
  drawPoint strokeWidth s (drawPoint strokeWidth s p)
  = drawPoint strokeWidth s p.
Proof.
  intros Hsw.
  destruct (plotY p) as [py|] eqn:Hy.
  - destruct (Qle_bool 0 (plotX p)
              && negb (JS.Qlt_bool (len (xAxis s)) (plotX p))) eqn:Hc.
    + eassert (drawPoint strokeWidth s p = _) as Hr.
      { unfold drawPoint. rewrite Hy. cbn [fmap option_fmap option_map].
        rewrite Hc. reflexivity. }
      rewrite Hr. unfold drawPoint.
      cbn [plotY plotX stackIndex graphic point_options set_tooltipPos
           set_graphic fmap option_fmap option_map].
      rewrite Hy. cbn [fmap option_fmap option_map]. rewrite Hc, !Hsw.
      reflexivity.
    + assert (¬ drawn s p) as Hnot.
      { intros (_ & H0 & Hlen). apply Qle_bool_iff in H0, Hlen.
        unfold JS.Qlt_bool in Hc. by rewrite H0, Hlen in Hc. }
      rewrite (drawPoint_undrawn_eq _ s p Hnot).
      destruct (graphic p) eqn:Hg.
      * rewrite drawPoint_undrawn_eq; [done|].
        intros (Hd & H0 & Hlen). apply Hnot. by split.
      * rewrite (drawPoint_undrawn_eq _ s p Hnot). by rewrite Hg.
  - assert (¬ drawn s p) as Hnot.
    { intros ([? ?] & _). congruence. }
    rewrite (drawPoint_undrawn_eq _ s p Hnot).
    destruct (graphic p) eqn:Hg.
    + rewrite drawPoint_undrawn_eq; [done|].
      intros ([? Hd] & _). cbn in Hd. congruence.
    + rewrite (drawPoint_undrawn_eq _ s p Hnot). by rewrite Hg.
Qed.

Lemma drawPoint_set_points strokeWidth pts s p :
  drawPoint strokeWidth (set_points pts s) p = drawPoint strokeWidth s p.
Proof. reflexivity. Qed.

(** X11. [drawPoints] is idempotent on the points: a second call updates
    the graphics in place and leaves every point, with its graphic and
    its tooltip anchor, as the first call left it, provided the stroke
    width that the renderer reports for a graphic does not depend on the
    text, position and anchor that [drawPoints] sets.  (The wrapping of
    [markerGroup.on] under [useHTML], which is applied at every call, is
    not part of the model.) *)
Theorem X11_drawPoints_idempotent (strokeWidth : Graphic → Q) (s : Series) :
  (∀ text px py ax ay g,
     strokeWidth (attr_plant text px py ax ay g) = strokeWidth g) →
  drawPoints strokeWidth (drawPoints strokeWidth s) = drawPoints strokeWidth s.
Proof.
  intros Hsw.
  assert (points (drawPoints strokeWidth (drawPoints strokeWidth s))
          = points (drawPoints strokeWidth s)) as Hpts.
  { apply list_eq. intros k. rewrite (drawPoints_lookup _ (drawPoints _ s)).
    rewrite drawPoints_lookup.
    destruct (points s !! k) as [p|]; [cbn|done].
    unfold drawPoints at 1. rewrite drawPoint_set_points.
    by rewrite drawPoint_idempotent. }
  unfold drawPoints at 1. fold (drawPoints strokeWidth s).
  change (drawPoints_loop strokeWidth (drawPoints strokeWidth s)
            (length (points (drawPoints strokeWidth s)))
            (points (drawPoints strokeWidth s)))
    with (points (drawPoints strokeWidth (drawPoints strokeWidth s))).
  rewrite Hpts. by destruct s.
Qed.

Lemma X11_drawPoints_idempotent_witness :
  let d := drawPoints Scenario.stroke_width
             (translate Scenario.column_translate Scenario.flags) in
  drawPoints Scenario.stroke_width d = d.
Proof.
  intros d.
  apply (X11_drawPoints_idempotent Scenario.stroke_width). reflexivity.
Defined.

Lemma drawPoint_drawn_eq strokeWidth s p py :
  plotY p = Some py → (0 <= plotX p)%Q → (plotX p <= len (xAxis s))%Q →
  let g0 :=
    match graphic p with
    | Some g => g
    | None =>
      label s p (JS.or_opt_str (po_shape (point_options p)) (shape (options s)))
    end in
  let gx :=
    if JS.Qlt_bool 0 (plotX p)
    then (plotX p - JS.rem (strokeWidth g0) 2)%Q else plotX p in
  let gy :=
    (py + opt_y (options s)
     - match stackIndex p with
       | Some n => inject_Z n * stackDistance (options s)
       | None => 0
       end)%Q in
  ∃ text ax ay,
    drawPoint strokeWidth s p =
      set_tooltipPos
        (Some (if inverted (chart s)
               then ((len (yAxis s) + pos (yAxis s) - plotLeft (chart s) - gy)%Q,
                     (len (xAxis s) - gx)%Q)
               else (gx, (gy + pos (yAxis s) - plotTop (chart s))%Q)))
        (set_graphic (Some (attr_plant text gx gy ax ay g0)) p).
Proof.
  intros Hy H0 Hlen g0 gx gy. unfold drawPoint. rewrite Hy.
  cbn [fmap option_fmap option_map].
  apply Qle_bool_iff in H0, Hlen. unfold JS.Qlt_bool at 1.
  rewrite H0, Hlen. cbn [negb andb]. by eexists _, _, _.
Qed.

Lemma label_align s p sh :
  g_align (label s p sh)
  = (if decide (sh = Some "flag"%string) then "left" else "center")%string.
Proof.
  unfold label. cbn [g_align]. destruct sh as [sh|]; [|by case_decide].
  case_decide as Hsh.
  - by injection Hsh as ->.
  - destruct sh as [|[[] [] [] [] [] [] [] []] sh]; try done.
    all: try (destruct sh as [|[[] [] [] [] [] [] [] []] sh]; try done).
    all: try (destruct sh as [|[[] [] [] [] [] [] [] []] sh]; try done).
    all: try (destruct sh as [|[[] [] [] [] [] [] [] []] sh]; try done).
    all: try (destruct sh as [|? ?]; done).
Qed.

(** X12. A graphic is created once and then updated in place: for a
    drawn point that already has a graphic, [drawPoints] changes only
    the text, the position and the anchor of that graphic, so that the
    shape, colours, stroke width and alignment it was created with stay,
    whatever the options say now; for a drawn point without a graphic
    the new label takes the shape of the point, or else of the series,
    is aligned left for the ['flag'] shape and centred for any other,
    and gets the text alignment and the [useHTML] flag of the series. *)
Theorem X12_graphic_created_once_then_updated
    (strokeWidth : Graphic → Q) (s : Series) (k : nat) (p : Point) :
  points s !! k = Some p →
  drawn s p →
  ∃ q g,
    points (drawPoints strokeWidth s) !! k = Some q ∧
    graphic q = Some g ∧
    (∀ g0, graphic p = Some g0 →
           ∃ text px py ax ay, g = attr_plant text px py ax ay g0) ∧
    (graphic p = None →
     g_shape g = JS.or_opt_str (po_shape (point_options p)) (shape (options s))
     ∧ g_align g = (if decide (g_shape g = Some "flag"%string)
                    then "left" else "center")%string
     ∧ g_text_align g = textAlign (options s)
     ∧ g_useHTML g = useHTML (options s)).
Proof.
  intros Hp ([py Hy] & H0 & Hlen).
  destruct (drawPoint_drawn_eq strokeWidth s p py Hy H0 Hlen)
    as (text & ax & ay & Hq).
  pose proof (drawPoints_lookup strokeWidth s k) as Hlook.
  rewrite Hp in Hlook. cbn [fmap option_fmap option_map] in Hlook.
  rewrite Hq in Hlook.
  eexists _, _. split; [exact Hlook|]. split; [reflexivity|]. split.
  - intros g0 ->. by eexists _, _, _, _, _.
  - intros ->. cbn [g_shape g_text_align g_useHTML attr_plant label].
    split; [done|]. split; [|done]. apply label_align.
Qed.

(** A flag of the scenario gets a label of shape ['flag'], aligned left;
    drawing again keeps that label and sets its text, position and
    anchor. *)
Lemma X12_graphic_created_once_then_updated_witness :
  let t := translate Scenario.column_translate Scenario.flags in
  ∃ q g, points (drawPoints Scenario.stroke_width t) !! 0%nat = Some q ∧
         graphic q = Some g ∧
         g_shape g = Some "flag"%string ∧ g_align g = "left"%string.
Proof.
  intros t.
  assert (∃ p, points t !! 0%nat = Some p ∧ drawn t p ∧ graphic p = None ∧
               JS.or_opt_str (po_shape (point_options p)) (shape (options t))
               = Some "flag"%string)
    as (p & Hp & Hd & Hg & Hshape).
  { vm_compute. eexists. split; [reflexivity|].
    split; [|split; reflexivity]. split; [by eexists|]. split; discriminate. }
  destruct (X12_graphic_created_once_then_updated Scenario.stroke_width t 0 p
              Hp Hd) as (q & g & Hq & Hgq & _ & Hnew).
  destruct (Hnew Hg) as (Hsh & Halign & _).
  exists q, g. split; [exact Hq|]. split; [exact Hgq|].
  rewrite Halign, Hsh, Hshape. split; reflexivity.
Defined.



(** ** The mouse-over listener: what it keeps, and how events compose *)

Lemma attr_y_id g : attr_y (g_y g) g = g.
Proof. by destruct g. Qed.

Lemma attr_y_attr_y v w g : attr_y v (attr_y w g) = attr_y v g.
Proof. reflexivity. Qed.

Lemma raise_graphic p g :
  graphic p = Some g → is_Some (graphic (raise p g)).
Proof.
  intros Hg. unfold raise. destruct (stackIndex p) as [n|]; [|by rewrite Hg].
  destruct ((0 <? n) && negb (raised p)); [by eexists|by rewrite Hg].
Qed.

Lemma raise_raise p g g' :
  graphic p = Some g → graphic (raise p g) = Some g' →
  raise (raise p g) g' = raise p g.
Proof.
  intros Hg Hg'. unfold raise in *.
  destruct (stackIndex p) as [n|] eqn:Hn; cycle 1.
  { by rewrite Hn. }
  destruct ((0 <? n) && negb (raised p)) eqn:Hc.
  - cbn [stackIndex raised set_raised set_graphic set__y].
    by rewrite Hn, andb_false_r.
  - by rewrite Hn, Hc.
Qed.

Lemma reverted_reverted k j p :
  reverted k j (reverted k j p) = reverted k j p.
Proof.
  unfold reverted. destruct (graphic p) as [g|] eqn:Hg; cycle 1.
  { by rewrite Hg. }
  destruct (negb (j =? k)%nat && raised p) eqn:Hc.
  - cbn [graphic raised set_raised set_graphic]. by rewrite andb_false_r.
  - by rewrite Hg, Hc.
Qed.

(** What the listener of point [k] does to the point at index [j]. *)
Lemma mouseover_lookup k pts p g (j : nat) :
  pts !! k = Some p → graphic p = Some g →
  mouseover k pts !! j =
    (λ pj, if decide (j = k) then raise p g else reverted k j pj) <$> pts !! j.
Proof.
  intros Hp Hg. destruct (decide (j = k)) as [->|Hj].
  - by rewrite (mouseover_self k pts p g), Hp.
  - by rewrite (mouseover_other k j pts p g).
Qed.

(** X14. The listener is idempotent: a second pointer-over on the same
    marker changes nothing; in particular a raised marker is not raised
    any further. *)
Theorem X14_mouseover_idempotent (k : nat) (pts : list Point) :
  mouseover k (mouseover k pts) = mouseover k pts.
Proof.
  destruct (pts !! k ≫= graphic) as [g|] eqn:Hlistener; cycle 1.
  { rewrite (mouseover_no_listener k pts Hlistener).
    by apply mouseover_no_listener. }
  destruct (pts !! k) as [p|] eqn:Hp; [cbn in Hlistener|done].
  destruct (raise_graphic p g Hlistener) as [g' Hg'].
  apply list_eq. intros j.
  rewrite (mouseover_lookup k (mouseover k pts) (raise p g) g' j);
    [|by apply mouseover_self|done].
  rewrite (mouseover_lookup k pts p g j) by done.
  destruct (pts !! j) as [pj|]; [cbn|done].
  case_decide; [by rewrite raise_raise|by rewrite reverted_reverted].
Qed.

(** X15. Raising and reverting is a round trip: when a stacked marker
    has been raised by a pointer-over and the pointer then enters
    another marker, the first marker is back at the [y] it had, is no
    longer raised, and its point differs from the original one only in
    the remembered [_y]. *)
Theorem X15_raise_then_revert_restores
    (pts : list Point) (k j : nat) (p pj : Point) (g gj : Graphic) (n : Z) :
  k ≠ j →
  pts !! k = Some p → graphic p = Some g →
  stackIndex p = Some n → 0 < n → raised p = false →
  pts !! j = Some pj → graphic pj = Some gj →
  mouseover j (mouseover k pts) !! k = Some (set__y (g_y g) p).
Proof.
  intros Hkj Hp Hg Hn Hpos Hr Hpj Hgj.
  assert (∃ pj' gj', mouseover k pts !! j = Some pj' ∧ graphic pj' = Some gj')
    as (pj' & gj' & Hpj' & Hgj').
  { rewrite (mouseover_other k j pts p g), Hpj by done. cbn.
    unfold reverted. rewrite Hgj.
    destruct (negb (j =? k)%nat && raised pj); by eexists _, _. }
  rewrite (mouseover_other j k _ pj' gj') by done.
  rewrite (mouseover_self k pts p g) by done. cbn. f_equal.
  unfold raise. rewrite Hn, Hr.
  assert ((0 <? n) = true) as -> by (apply Z.ltb_lt; lia). cbn.
  unfold reverted. cbn [graphic raised _y set_raised set_graphic set__y].
  destruct (Nat.eqb_spec k j); [done|]. cbn [negb andb].
  rewrite attr_y_attr_y, attr_y_id.
  destruct p. cbn in *. by subst.
Qed.

(** The flag of rank [2], raised from [296] to [288] and put back by a
    pointer-over on the flag of rank [1], is at [296] again. *)
Lemma X15_raise_then_revert_restores_witness :
  ∃ q g y, mouseover 4 (mouseover 5 (points Scenario.drawn_flags)) !! 5%nat
             = Some q ∧
           graphic q = Some g ∧ g_y g = Some y ∧ (y == 296)%Q ∧
           raised q = false.
Proof.
  assert (∃ p g pj gj,
            points Scenario.drawn_flags !! 5%nat = Some p ∧
            graphic p = Some g ∧ stackIndex p = Some 2 ∧ raised p = false ∧
            points Scenario.drawn_flags !! 4%nat = Some pj ∧
            graphic pj = Some gj ∧
            ∃ y, g_y g = Some y ∧ (y == 296)%Q)
    as (p & g & pj & gj & Hp & Hg & Hn & Hr & Hpj & Hgj & y & Hy & Hyeq)
    by (vm_compute; eexists _, _, _, _; repeat split; try reflexivity;
        eexists; split; reflexivity).
  pose proof (X15_raise_then_revert_restores (points Scenario.drawn_flags)
                5 4 p pj g gj 2 ltac:(discriminate) Hp Hg Hn eq_refl Hr
                Hpj Hgj) as Hround.
  exists (set__y (g_y g) p), g, y.
  split; [exact Hround|]. split; [exact Hg|]. split; [exact Hy|].
  split; [exact Hyeq|exact Hr].
Defined.

Lemma raise_frame p g :
  graphic p = Some g →
  x (raise p g) = x p ∧ plotX (raise p g) = plotX p ∧
  plotY (raise p g) = plotY p ∧ stackIndex (raise p g) = stackIndex p ∧
  shapeArgs (raise p g) = shapeArgs p ∧ tooltipPos (raise p g) = tooltipPos p ∧
  (is_Some (graphic (raise p g)) ↔ is_Some (graphic p)).
Proof.
  intros Hg. unfold raise. destruct (stackIndex p) as [n|] eqn:Hn; [|done].
  destruct ((0 <? n) && negb (raised p)); [|done].
  cbn. rewrite Hg. repeat split; try done; by eexists.
Qed.

Lemma reverted_frame k j p :
  x (reverted k j p) = x p ∧ plotX (reverted k j p) = plotX p ∧
  plotY (reverted k j p) = plotY p ∧
  stackIndex (reverted k j p) = stackIndex p ∧
  shapeArgs (reverted k j p) = shapeArgs p ∧
  tooltipPos (reverted k j p) = tooltipPos p ∧
  (is_Some (graphic (reverted k j p)) ↔ is_Some (graphic p)).
Proof.
  unfold reverted. destruct (graphic p) as [g|] eqn:Hg; [|by rewrite Hg].
  destruct (negb (j =? k)%nat && raised p); [|by rewrite Hg].
  cbn. repeat split; try done; by eexists.
Qed.

(** X16. The listener touches nothing but the raise: a pointer-over
    leaves [x], [plotX], [plotY], [stackIndex], [shapeArgs] and
    [tooltipPos] of every point as they are and neither creates nor
    destroys a graphic, so that the points that carry a listener are the
    same before and after. *)
Theorem X16_mouseover_keeps_the_placement (s : Series) (k : nat) :
  (∀ (j : nat) pj,
     points s !! j = Some pj →
     ∃ q, mouseover k (points s) !! j = Some q ∧
          x q = x pj ∧ plotX q = plotX pj ∧ plotY q = plotY pj ∧
          stackIndex q = stackIndex pj ∧ shapeArgs q = shapeArgs pj ∧
          tooltipPos q = tooltipPos pj ∧
          (is_Some (graphic q) ↔ is_Some (graphic pj))) ∧
  length (mouseover k (points s)) = length (points s) ∧
  drawTracker (set_points (mouseover k (points s)) s) = drawTracker s.
Proof.
  assert (∀ (j : nat) pj,
     points s !! j = Some pj →
     ∃ q, mouseover k (points s) !! j = Some q ∧
          x q = x pj ∧ plotX q = plotX pj ∧ plotY q = plotY pj ∧
          stackIndex q = stackIndex pj ∧ shapeArgs q = shapeArgs pj ∧
          tooltipPos q = tooltipPos pj ∧
          (is_Some (graphic q) ↔ is_Some (graphic pj))) as Hframe.
  { intros j pj Hpj.
    destruct (points s !! k ≫= graphic) as [g|] eqn:Hlistener; cycle 1.
    { rewrite mouseover_no_listener by done. by exists pj. }
    destruct (points s !! k) as [p|] eqn:Hp; [cbn in Hlistener|done].
    rewrite (mouseover_lookup k _ p g j), Hpj by done. cbn.
    eexists. split; [done|]. case_decide as Hj.
    - subst j. assert (pj = p) as -> by congruence. by apply raise_frame.
    - apply reverted_frame. }
  assert (length (mouseover k (points s)) = length (points s)) as Hlen.
  { apply Nat.le_antisymm.
    - destruct (decide (length (mouseover k (points s)) ≤ length (points s))%nat)
        as [|Hgt]; [done|].
      destruct (lookup_lt_is_Some_2 (mouseover k (points s))
                  (length (points s)) ltac:(lia)) as [q Hq].
      destruct (points s !! k ≫= graphic) as [g|] eqn:Hlistener; cycle 1.
      { rewrite mouseover_no_listener in Hgt by done. lia. }
      destruct (points s !! k) as [p|] eqn:Hp; [cbn in Hlistener|done].
      rewrite (mouseover_lookup k _ p g) in Hq by done.
      by rewrite lookup_ge_None_2 in Hq.
    - destruct (decide (length (points s) ≤ length (mouseover k (points s)))%nat)
        as [|Hgt]; [done|].
      destruct (lookup_lt_is_Some_2 (points s)
                  (length (mouseover k (points s))) ltac:(lia)) as [pj Hpj].
      destruct (Hframe _ pj Hpj) as (q & Hq & _).
      apply lookup_lt_Some in Hq. lia. }
  split; [done|]. split; [done|].
  unfold drawTracker. cbn [points set_points]. rewrite Hlen.
  apply list_filter_iff. intros j.
  destruct (points s !! j) as [pj|] eqn:Hpj.
  - destruct (Hframe j pj Hpj) as (q & -> & _ & _ & _ & _ & _ & _ & Hg).
    done.
  - assert (mouseover k (points s) !! j = None) as ->; [|done].
    apply lookup_ge_None. rewrite Hlen. by apply lookup_ge_None.
Qed.

(** X17. A pointer-over moves only a stacked marker that is not raised
    yet: on the base of a stack, on a flag without a rank and on a
    marker that is already raised, the listener leaves the point of the
    marker as it is. *)
Theorem X17_mouseover_leaves_base_and_raised_markers
    (pts : list Point) (k : nat) (p : Point) (g : Graphic) :
  pts !! k = Some p →
  graphic p = Some g →
  (stackIndex p = None ∨ (∃ n, stackIndex p = Some n ∧ n ≤ 0) ∨
   raised p = true) →
  mouseover k pts !! k = Some p.
Proof.
  intros Hp Hg Hcase. rewrite (mouseover_self k pts p g) by done. f_equal.
  unfold raise. destruct Hcase as [->|[(n & -> & Hn)|Hr]]; [done|..].
  - by assert ((0 <? n) = false) as -> by (apply Z.ltb_ge; lia).
  - destruct (stackIndex p); [|done]. by rewrite Hr, andb_false_r.
Qed.

(** The base of the stack at [x = 50] stays at [320] under the pointer;
    so does the flag of rank [2] once it has been raised. *)
Lemma X17_mouseover_leaves_base_and_raised_markers_witness :
  (∃ p, points Scenario.drawn_flags !! 3%nat = Some p ∧
        mouseover 3 (points Scenario.drawn_flags) !! 3%nat = Some p) ∧
  (∃ p, points Scenario.hovered_flags !! 5%nat = Some p ∧
        mouseover 5 (points Scenario.hovered_flags) !! 5%nat = Some p).
Proof.
  assert (∃ p g, points Scenario.drawn_flags !! 3%nat = Some p ∧
                 graphic p = Some g ∧ stackIndex p = Some 0)
    as (p & g & Hp & Hg & Hs)
    by (vm_compute; eexists _, _; repeat split; reflexivity).
  assert (∃ p g, points Scenario.hovered_flags !! 5%nat = Some p ∧
                 graphic p = Some g ∧ raised p = true)
    as (p' & g' & Hp' & Hg' & Hr')
    by (vm_compute; eexists _, _; repeat split; reflexivity).
  split.
  - exists p. split; [exact Hp|].
    apply (X17_mouseover_leaves_base_and_raised_markers _ 3 p g Hp Hg).
    right. left. exists 0. split; [exact Hs|lia].
  - exists p'. split; [exact Hp'|].
    apply (X17_mouseover_leaves_base_and_raised_markers _ 5 p' g' Hp' Hg').
    right. right. exact Hr'.
Defined.

(** A pointer-over on the flag of rank [2]: the flag keeps its [plotY]
    of [350], and the listeners stay on the six drawn flags. *)
Lemma X16_mouseover_keeps_the_placement_witness :
  (∃ q, mouseover 5 (points Scenario.drawn_flags) !! 5%nat = Some q ∧
        plotY q = Some 350%Q) ∧
  drawTracker Scenario.hovered_flags = [0; 1; 2; 3; 4; 5]%nat.
Proof.
  destruct (X16_mouseover_keeps_the_placement Scenario.drawn_flags 5)
    as (Hframe & _ & Htracker).
  assert (∃ p, points Scenario.drawn_flags !! 5%nat = Some p ∧
               plotY p = Some 350%Q) as (p & Hp & Hy)
    by (vm_compute; eexists; split; reflexivity).
  destruct (Hframe 5%nat p Hp) as (q & Hq & _ & _ & Hyq & _).
  split.
  - exists q. split; [exact Hq|]. by rewrite Hyq.
  - unfold Scenario.hovered_flags. rewrite Htracker.
    vm_compute. reflexivity.
Defined.

(** ** The symbols and the presentational attributes *)

(** X18. The flag icon falls back to the corner of its label for an
    anchor that is missing or [0]: without options, or with an [anchorX]
    (an [anchorY]) that is undefined or [0], the path starts at [x] (at
    [y]); with any other anchor it starts there.  The outline of the
    label, from ['L'] on, does not depend on the anchor. *)
Theorem X18_flag_anchor_falls_back_to_the_label
    (x y w h : Q) (options : option SymbolOptions) :
  ∃ ax ay,
    flag x y w h options
    = [Cmd "M"; Num ax; Num ay] ++ drop 3 (flag x y w h None) ∧
    (JS.truthy_num (options ≫= anchorX) = false → ax = x) ∧
    (JS.truthy_num (options ≫= anchorY) = false → ay = y) ∧
    (∀ a, options ≫= anchorX = Some a → ¬ (a == 0)%Q → ax = a) ∧
    (∀ a, options ≫= anchorY = Some a → ¬ (a == 0)%Q → ay = a).
Proof.
  eexists _, _. split; [reflexivity|]. unfold JS.or_opt_num.
  split; [by intros ->|]. split; [by intros ->|]. split.
  - intros a Ha Hne. rewrite Ha. cbn.
    destruct (Qeq_bool a 0) eqn:E; [|done]. by apply Qeq_bool_iff in E.
  - intros a Ha Hne. rewrite Ha. cbn.
    destruct (Qeq_bool a 0) eqn:E; [|done]. by apply Qeq_bool_iff in E.
Qed.

(** A flag label at [(10, 20)] with the anchor at [(0, 55)]: the path
    starts at [x = 10], not at [0], and at [y = 55]. *)
Lemma X18_flag_anchor_falls_back_to_the_label_witness :
  take 3 (flag 10 20 30 15 (Some {| anchorX := Some 0%Q;
                                    anchorY := Some 55%Q |}))
  = [Cmd "M"; Num 10; Num 55].
Proof.
  destruct (X18_flag_anchor_falls_back_to_the_label 10 20 30 15
              (Some {| anchorX := Some 0%Q; anchorY := Some 55%Q |}))
    as (ax & ay & -> & Hx & _ & _ & Hy).
  rewrite (Hx eq_refl), (Hy 55%Q eq_refl); [reflexivity|discriminate].
Defined.

(** X19. The connector of a pin: [circlepin] and [squarepin] append a
    connector to the base shape only when both anchor coordinates are
    defined and not [0]; the connector is the vertical line at [anchorX]
    from the edge of the label that faces the anchor (the top edge [y]
    when the anchor is above the label, the bottom edge [y + h]
    otherwise) to the anchor.  Without such an anchor, as for a stacked
    flag above rank [0], the path is the base shape alone. *)
Theorem X19_pin_connector
    (symbols : string → Q → Q → Q → Q → list PathItem) (shape : string)
    (x y w h : Q) (options : option SymbolOptions) :
  let base :=
    symbols shape (pin_box shape x w h).1 y (pin_box shape x w h).2 h in
  (JS.truthy_num (options ≫= anchorX) = false ∨
   JS.truthy_num (options ≫= anchorY) = false →
   pin symbols shape x y w h options = base) ∧
  (∀ ax ay,
     options ≫= anchorX = Some ax → options ≫= anchorY = Some ay →
     ¬ (ax == 0)%Q → ¬ (ay == 0)%Q →
     ((ay < y)%Q →
      pin symbols shape x y w h options
      = base ++ [Cmd "M"; Num ax; Num y; Cmd "L"; Num ax; Num ay]) ∧
     ((y <= ay)%Q →
      pin symbols shape x y w h options
      = base ++ [Cmd "M"; Num ax; Num (y + h)%Q; Cmd "L"; Num ax; Num ay])).
Proof.
  intros base. unfold pin. fold base.
  destruct (pin_box shape x w h) as [x' w'] eqn:Hbox. cbn [fst snd] in base.
  split.
  - intros Hfalsy.
    destruct (options ≫= anchorX) as [ax|], (options ≫= anchorY) as [ay|];
      try done.
    cbn in Hfalsy.
    destruct Hfalsy as [Hf|Hf]; apply negb_false_iff in Hf; rewrite Hf;
      by rewrite ?andb_false_r.
  - intros ax ay -> -> Hax Hay.
    assert (Qeq_bool ax 0 = false) as ->.
    { destruct (Qeq_bool ax 0) eqn:E; [|done]. by apply Qeq_bool_iff in E. }
    assert (Qeq_bool ay 0 = false) as ->.
    { destruct (Qeq_bool ay 0) eqn:E; [|done]. by apply Qeq_bool_iff in E. }
    cbn [negb andb]. split.
    + intros Hlt. apply Qlt_bool_iff in Hlt. by rewrite Hlt.
    + intros Hle. destruct (JS.Qlt_bool ay y) eqn:E; [|done].
      apply Qlt_bool_iff in E. by apply Qle_not_lt in Hle.
Qed.

(** A square pin at [y = 20] of height [15]: with the anchor at
    [(25, 60)] below it the connector leaves the bottom edge [35]; with
    the anchor suppressed there is no connector. *)
Lemma X19_pin_connector_witness :
  squarepin Scenario.box_symbol 10 20 30 15
    (Some {| anchorX := Some 25%Q; anchorY := Some 60%Q |})
  = Scenario.box_symbol "square" 10 20 30 15
    ++ [Cmd "M"; Num 25; Num (20 + 15)%Q; Cmd "L"; Num 25; Num 60] ∧
  squarepin Scenario.box_symbol 10 20 30 15
    (Some {| anchorX := None; anchorY := None |})
  = Scenario.box_symbol "square" 10 20 30 15.
Proof.
  split.
  - destruct (X19_pin_connector Scenario.box_symbol "square" 10 20 30 15
                (Some {| anchorX := Some 25%Q; anchorY := Some 60%Q |}))
      as [_ Hanchor].
    destruct (Hanchor 25%Q 60%Q eq_refl eq_refl) as [_ Hbelow];
      [discriminate..|].
    apply Hbelow. discriminate.
  - destruct (X19_pin_connector Scenario.box_symbol "square" 10 20 30 15
                (Some {| anchorX := None; anchorY := None |}))
      as [Hnone _].
    apply Hnone. by left.
Defined.


(** X21. With a state, the attributes of the state replace those of the
    point: the fill is the state's [fillColor], the stroke its
    [lineColor], each falling back to the colour of the point or else of
    the series, and the stroke width is the state's [lineWidth], or else
    that of the options, or else [0]; the point's own [fillColor] and
    [lineWidth] play no part. *)
Theorem X21_state_attributes_replace_the_points
    (series : Series) (point : option Point) (name : string)
    (st : StateOptions) :
  name ≠ EmptyString →
  states (options series) !! name = Some st →
  let color :=
    JS.or_opt_str (point ≫= point_color) (color series) in
  pointAttribs series point (Some name) =
    Some {| at_fill := JS.or_opt_str (st_fillColor st) color;
            at_stroke := JS.or_opt_str (st_lineColor st) color;
            at_stroke_width :=
              JS.or_zero (JS.or_opt_num (st_lineWidth st)
                                        (lineWidth (options series))) |} ∧
  ∀ fill width,
    pointAttribs series
      (match point with
       | Some p =>
         Some {| x := x p; plotX := plotX p; plotY := plotY p;
                 stackIndex := stackIndex p; shapeArgs := shapeArgs p;
                 point_options := point_options p;
                 point_color := point_color p; point_fillColor := fill;
                 point_lineWidth := width; graphic := graphic p;
                 tooltipPos := tooltipPos p; raised := raised p;
                 _y := _y p |}
       | None => None
       end) (Some name)
    = pointAttribs series point (Some name).
Proof.
  intros Hname Hst color.
  destruct name as [|c name]; [done|].
  unfold pointAttribs. cbv zeta. cbn [JS.truthy_str mbind option_bind].
  rewrite Hst. cbn. split; [done|]. intros fill width. by destruct point.
Qed.

(** A point with its own fill and a line width of [4], in the [hover]
    state of the scenario: the fill is that of the state, and the stroke
    width that of the options, [1]. *)
Lemma X21_state_attributes_replace_the_points_witness :
  ∃ a, pointAttribs (Cases.flags_on None)
         (Some {| x := 5; plotX := 5; plotY := None; stackIndex := None;
                  shapeArgs := ∅;
                  point_options := {| po_title := None; po_shape := None |};
                  point_color := None; point_fillColor := Some "#ff0000"%string;
                  point_lineWidth := Some 4%Q; graphic := None;
                  tooltipPos := None; raised := false; _y := None |})
         (Some "hover"%string) = Some a ∧
       at_fill a = Some "#fcffc5"%string ∧ at_stroke_width a = 1%Q.
Proof.
  destruct (X21_state_attributes_replace_the_points (Cases.flags_on None)
              (Some {| x := 5; plotX := 5; plotY := None; stackIndex := None;
                  shapeArgs := ∅;
                  point_options := {| po_title := None; po_shape := None |};
                  point_color := None; point_fillColor := Some "#ff0000"%string;
                  point_lineWidth := Some 4%Q; graphic := None;
                  tooltipPos := None; raised := false; _y := None |})
              "hover"
              {| st_fillColor := Some "#fcffc5"%string;
                 st_lineColor := Some "#000000"%string;
                 st_lineWidth := None |}) as [Hattr _];
    [discriminate|reflexivity|].
  eexists. split; [exact Hattr|]. split; reflexivity.
Defined.
